(** * The commit log's offset index (server/commitlog/index.go)

    A shallow embedding of the index file of a commit-log segment: the
    fixed-width entry codec, the memory-mapped store with its write
    position, the recovery search [InitializePosition] and the sequential
    [IndexScanner].

    Conventions of the embedding.
    - Go's [int64] and [int32] are [Z] values kept in range by the explicit
      wrap-around functions [int64] and [int32]; Go's [int] is the 64-bit
      [int] of the platforms the broker runs on.
    - The mapped region is a [list byte]; slicing out of range panics, as
      it does in Go, and [copy] moves as many bytes as fit.
    - A method on [*Index] takes the store and returns the store it leaves
      behind together with its Go results; a run-time panic is the outcome
      [Panicked].  The mutex [mu] only serialises callers and has no
      counterpart in this sequential model. *)

From Stdlib Require Import String ZArith Lia List Bool.
From coqutil Require Import Byte Z.bitblast Z.prove_Zeq_bitwise.
Import ListNotations.
Local Open Scope Z_scope.

(** ** Machine integers *)

Module GoInt.

(** Signed [w]-bit wrap-around: the value a Go conversion or an
    overflowing operation leaves in a [w]-bit signed integer. *)
Definition wrap (w : Z) (x : Z) : Z :=
  (x + 2 ^ (w - 1)) mod 2 ^ w - 2 ^ (w - 1).

Definition int32 (x : Z) : Z := wrap 32 x.
Definition int64 (x : Z) : Z := wrap 64 x.
(** [int] is 64 bits wide (amd64, arm64). *)
Definition int (x : Z) : Z := wrap 64 x.
Definition uint (x : Z) : Z := x mod 2 ^ 64.
Definition uint32 (x : Z) : Z := x mod 2 ^ 32.

Definition min_int32 : Z := - 2 ^ 31.
Definition max_int32 : Z := 2 ^ 31 - 1.
Definition min_int64 : Z := - 2 ^ 63.
Definition max_int64 : Z := 2 ^ 63 - 1.

Definition in_int32 (x : Z) : Prop := min_int32 <= x <= max_int32.
Definition in_int64 (x : Z) : Prop := min_int64 <= x <= max_int64.

End GoInt.
Export GoInt.

(** ** Outcomes of a call *)

(** A call returns, panics, or (for the bounded model of a loop) runs out
    of fuel; [Search_total] and [InitializePosition_returns] show that the
    last case never happens. *)
Inductive outcome (A : Type) : Type :=
| Returned (a : A)
| Panicked
| Diverged.
Arguments Returned {A} a.
Arguments Panicked {A}.
Arguments Diverged {A}.

Definition bind {A B : Type} (m : outcome A) (k : A -> outcome B) : outcome B :=
  match m with
  | Returned a => k a
  | Panicked => Panicked
  | Diverged => Diverged
  end.

Notation "x <- m ;; k" := (bind m (fun x => k))
  (at level 61, m at next level, right associativity).

(** The error values the index hands out. *)
Inductive error : Type :=
| io_EOF                 (* io.EOF *)
| ErrIndexCorrupt        (* errors.New("corrupt index file") *)
| errBadTruncateNumber   (* errors.New("bad truncate number") *)
| errPathIsEmpty         (* errors.New("path is empty") *)
| errTruncateFailed      (* the error of file.Truncate *)
| errMmapFailed          (* errors.Wrap(err, "mmap file failed") *)
| errBinaryReadFailed.   (* errors.Wrap(err, "binary read failed") *)

(** ** Slices *)

Module Slice.

Definition len {A : Type} (s : list A) : Z := Z.of_nat (length s).

(** [s[lo:hi]]: panics unless [0 <= lo <= hi <= len(s)]. *)
Definition slice {A : Type} (s : list A) (lo hi : Z) : outcome (list A) :=
  if (0 <=? lo) && (lo <=? hi) && (hi <=? len s)
  then Returned (firstn (Z.to_nat (hi - lo)) (skipn (Z.to_nat lo) s))
  else Panicked.

(** [s[lo:]]: panics unless [0 <= lo <= len(s)]. *)
Definition slice_from {A : Type} (s : list A) (lo : Z) : outcome (list A) :=
  if (0 <=? lo) && (lo <=? len s)
  then Returned (skipn (Z.to_nat lo) s)
  else Panicked.

(** The builtin [copy(dst, src)]: the first [min(len(dst), len(src))]
    elements of [dst] are overwritten; the count is returned. *)
Definition copy {A : Type} (dst src : list A) : list A * Z :=
  let n := Nat.min (length dst) (length src) in
  (firstn n src ++ skipn n dst, Z.of_nat n).

End Slice.
Export Slice.

(** ** encoding/binary *)

Inductive ByteOrder : Type := BigEndian | LittleEndian.

(** [order.PutUint32]: big endian stores [byte(v >> 24)] first, little
    endian stores [byte(v)] first. *)
Definition PutUint32 (order : ByteOrder) (v : Z) : list byte :=
  match order with
  | BigEndian =>
      [byte.of_Z (Z.shiftr v 24); byte.of_Z (Z.shiftr v 16);
       byte.of_Z (Z.shiftr v 8); byte.of_Z v]
  | LittleEndian =>
      [byte.of_Z v; byte.of_Z (Z.shiftr v 8);
       byte.of_Z (Z.shiftr v 16); byte.of_Z (Z.shiftr v 24)]
  end.

(** [order.Uint32] on the first four bytes of [b]; a missing byte reads
    as zero (the callers below always pass four). *)
Definition Uint32 (order : ByteOrder) (b : list byte) : Z :=
  let at_ (i : nat) := byte.unsigned (nth i b Byte.x00) in
  match order with
  | BigEndian =>
      Z.lor (Z.lor (Z.lor (at_ 3%nat) (Z.shiftl (at_ 2%nat) 8))
                   (Z.shiftl (at_ 1%nat) 16))
            (Z.shiftl (at_ 0%nat) 24)
  | LittleEndian =>
      Z.lor (Z.lor (Z.lor (at_ 0%nat) (Z.shiftl (at_ 1%nat) 8))
                   (Z.shiftl (at_ 2%nat) 16))
            (Z.shiftl (at_ 3%nat) 24)
  end.

(** Modelled from the spec: the byte order [proto.Encoding], declared in
    the package server/proto; section 6 of the specification fixes the
    big-endian convention for the record layout. *)
Definition Encoding : ByteOrder := BigEndian.

(** ** Entries and their on-disk form *)

Definition offsetWidth : Z := 4.
Definition positionWidth : Z := 4.
Definition sizeWidth : Z := 4.
Definition entryWidth : Z := offsetWidth + positionWidth + sizeWidth.

(** [Offset] and [Position] are [int64], [Size] is [int32]. *)
Record Entry : Type := mkEntry {
  Offset : Z;
  Position : Z;
  Size : Z
}.

(** The zero value [Entry{}]. *)
Definition zeroEntry : Entry := mkEntry 0 0 0.

Definition wf_Entry (e : Entry) : Prop :=
  in_int64 (Offset e) /\ in_int64 (Position e) /\ in_int32 (Size e).

(** [relEntry] is an Entry relative to the base offset; all three fields
    are [int32]. *)
Record relEntry : Type := mkRelEntry {
  relOffset : Z;
  relPosition : Z;
  relSize : Z
}.

Definition newRelEntry (e : Entry) (baseOffset : Z) : relEntry :=
  {| relOffset := int32 (int64 (Offset e - baseOffset));
     relPosition := int32 (Position e);
     relSize := Size e |}.

(** [rel.fill(e, baseOffset)] assigns all three fields of [*e]; the value
    [e] had before does not survive. *)
Definition fill (rel : relEntry) (e : Entry) (baseOffset : Z) : Entry :=
  {| Offset := int64 (baseOffset + relOffset rel);
     Position := relPosition rel;
     Size := relSize rel |}.

(** [binary.Write(b, order, relEntry)] appends the three fields, each as
    four bytes, to the buffer; on a struct of fixed-size integers and a
    [bytes.Buffer] it has no failing path. *)
Definition binary_Write (b : list byte) (order : ByteOrder) (rel : relEntry)
  : list byte :=
  b ++ PutUint32 order (uint32 (relOffset rel))
    ++ PutUint32 order (uint32 (relPosition rel))
    ++ PutUint32 order (uint32 (relSize rel)).

(** The three fields [binary.Read] decodes from the first twelve bytes. *)
Definition decodeRel (order : ByteOrder) (p : list byte) : relEntry :=
  {| relOffset := int32 (Uint32 order (firstn 4 p));
     relPosition := int32 (Uint32 order (firstn 4 (skipn 4 p)));
     relSize := int32 (Uint32 order (firstn 4 (skipn 8 p))) |}.

(** [binary.Read(r, order, rel)] consumes [entryWidth] bytes of the reader;
    a shorter reader is an error. *)
Definition binary_Read (p : list byte) (order : ByteOrder) : option relEntry :=
  if len p <? entryWidth then None else Some (decodeRel order p).

(** ** The index store *)

Record options : Type := mkOptions {
  path : string;
  bytes : Z;
  baseOffset : Z
}.

(** [mmap] is the mapped file, [position] the write position; the fields
    [file] and [mu] carry no data of their own. *)
Record Index : Type := mkIndex {
  opts : options;
  mmap : list byte;
  position : Z
}.

Definition set_position (idx : Index) (p : Z) : Index :=
  {| opts := opts idx; mmap := mmap idx; position := p |}.

Definition set_mmap (idx : Index) (m : list byte) : Index :=
  {| opts := opts idx; mmap := m; position := position idx |}.

(** Modelled from the spec: [roundDown], declared elsewhere in the package;
    the capacity is "rounded down to a multiple of entryWidth". *)
Definition roundDown (total factor : Z) : Z := factor * Z.quot total factor.

(** [file.Truncate(size)] on the file's bytes: cut, or extend with zeros. *)
Definition file_Truncate (file : list byte) (size : Z) : list byte :=
  firstn (Z.to_nat size) file
    ++ repeat Byte.x00 (Z.to_nat size - length file).

(** [NewIndex] on a file whose present content is [file] (empty when the
    file is created).  Truncate refuses a negative length, and a file of
    length zero cannot be mapped: [gommap.Map] fails on it.  The failures
    of the operating system that do not depend on the arguments (open,
    stat) are outside the model. *)
Definition NewIndex (o : options) (file : list byte)
  : option Index * option error :=
  let o := if bytes o =? 0
           then {| path := path o; bytes := 10 * 1024 * 1024;
                   baseOffset := baseOffset o |}
           else o in
  if String.eqb (path o) EmptyString then (None, Some errPathIsEmpty)
  else
    let size := roundDown (bytes o) entryWidth in
    if size <? 0 then (None, Some errTruncateFailed)
    else if size =? 0 then (None, Some errMmapFailed)
    else
      let file' := file_Truncate file size in
      (Some {| opts := o; mmap := file'; position := len file' |}, None).

Definition ReadAt (idx : Index) (p : list byte) (offset : Z)
  : outcome (list byte * Z * option error) :=
  if position idx <? int64 (offset + entryWidth)
  then Returned (p, 0, Some io_EOF)
  else
    src <- slice (mmap idx) offset (int64 (offset + entryWidth)) ;;
    let (p', n) := copy p src in
    Returned (p', n, None).

Definition WriteAt (idx : Index) (p : list byte) (offset : Z)
  : outcome (Index * Z) :=
  dst <- slice_from (mmap idx) offset ;;
  let (dst', n) := copy dst p in
  Returned (set_mmap idx (firstn (Z.to_nat offset) (mmap idx) ++ dst'), n).

(** The bytes [WriteEntries] collects in its buffer. *)
Definition encodeEntries (entries : list Entry) (base : Z) : list byte :=
  fold_left (fun b entry => binary_Write b Encoding (newRelEntry entry base))
            entries [].

Definition WriteEntries (idx : Index) (entries : list Entry)
  : outcome (Index * option error) :=
  let b := encodeEntries entries (baseOffset (opts idx)) in
  r <- WriteAt idx b (position idx) ;;
  let idx' := fst r in
  Returned
    (set_position idx'
       (int64 (position idx' + int64 (entryWidth * int64 (len entries)))),
     None).

(** [ReadEntryAtFileOffset(e, fileOffset)]: the entry [*e] after the call,
    and the error.  [*e] is left alone when the call fails. *)
Definition ReadEntryAtFileOffset (idx : Index) (e : Entry) (fileOffset : Z)
  : outcome (Entry * option error) :=
  let p := repeat Byte.x00 (Z.to_nat entryWidth) in
  r <- ReadAt idx p fileOffset ;;
  match r with
  | (_, _, Some err) => Returned (e, Some err)
  | (p', _, None) =>
      match binary_Read p' Encoding with
      | None => Returned (e, Some errBinaryReadFailed)
      | Some rel => Returned (fill rel e (baseOffset (opts idx)), None)
      end
  end.

Definition ReadEntryAtLogOffset (idx : Index) (e : Entry) (logOffset : Z)
  : outcome (Entry * option error) :=
  ReadEntryAtFileOffset idx e (int64 (logOffset * entryWidth)).

Definition TruncateEntries (idx : Index) (number : Z)
  : outcome (Index * option error) :=
  if int64 (int (number * entryWidth)) >? position idx
  then Returned (idx, Some errBadTruncateNumber)
  else Returned (set_position idx (int64 (int (number * entryWidth))), None).

(** ** sort.Search *)

(** The loop of [sort.Search]: [for i < j { h := int(uint(i+j) >> 1); if
    !f(h) { i = h + 1 } else { j = h } }; return i].  [fuel] bounds the
    number of iterations. *)
Fixpoint Search_loop (fuel : nat) (f : Z -> outcome bool) (i j : Z)
  : outcome Z :=
  if i <? j then
    match fuel with
    | O => Diverged
    | S fuel' =>
        let h := int (Z.shiftr (uint (int (i + j))) 1) in
        b <- f h ;;
        if negb b then Search_loop fuel' f (int (h + 1)) j
        else Search_loop fuel' f i h
    end
  else Returned i.

(** Every pass halves [j - i], so the loop of [Search(n, f)] makes at most
    [log2 n + 1] passes. *)
Definition Search (n : Z) (f : Z -> outcome bool) : outcome Z :=
  Search_loop (S (Z.to_nat (Z.log2 n))) f 0 n.

(** ** Recovery *)

(** The closure handed to [sort.Search]: it panics on a failed read, and
    tells whether slot [i] is the empty sentinel. *)
Definition isEmptySlot (idx : Index) (i : Z) : outcome bool :=
  r <- ReadEntryAtFileOffset idx zeroEntry (int64 (int (i * entryWidth))) ;;
  match r with
  | (_, Some _) => Panicked
  | (entry, None) => Returned ((Position entry =? 0) && (Size entry =? 0))
  end.

(** The slot index the search of [InitializePosition] settles on. *)
Definition firstEmptySlot (idx : Index) : outcome Z :=
  Search (int (Z.quot (bytes (opts idx)) entryWidth)) (isEmptySlot idx).

(** [InitializePosition]: the store it leaves, the entry returned ([None]
    for [nil]) and the error.  The local [entry] is assigned in full by
    every successful read and read only after one. *)
Definition InitializePosition (idx : Index)
  : outcome (Index * (option Entry * option error)) :=
  i <- firstEmptySlot idx ;;
  let idx := set_position idx (int64 (int (i * entryWidth))) in
  if i =? 0 then Returned (idx, (None, None))
  else
    let i := int (i - 1) in
    r <- ReadEntryAtFileOffset idx zeroEntry (int64 (int (i * entryWidth))) ;;
    match r with
    | (_, Some err) => Returned (idx, (None, Some err))
    | (entry, None) =>
        if Offset entry <? baseOffset (opts idx)
        then Returned (idx, (None, Some ErrIndexCorrupt))
        else if negb (Z.rem (position idx) entryWidth =? 0)
        then Returned (idx, (None, Some ErrIndexCorrupt))
        else Returned (idx, (Some entry, None))
    end.

(** ** The scanner *)

(** The scanner's own [entry] cell and its slot counter [offset]; the
    [idx] pointer is the store the calls below are given. *)
Record IndexScanner : Type := mkScanner {
  entry : Entry;
  offset : Z
}.

Definition NewIndexScanner : IndexScanner :=
  {| entry := zeroEntry; offset := 0 |}.

(** What [Scan] returns as [*Entry]: [nil], or the address of the
    scanner's [entry] cell, the same address at every call. *)
Inductive EntryPtr : Type := nilEntry | scannerEntry.

Definition deref (s : IndexScanner) (p : EntryPtr) : option Entry :=
  match p with
  | nilEntry => None
  | scannerEntry => Some (entry s)
  end.

Definition Scan (idx : Index) (s : IndexScanner)
  : outcome (IndexScanner * (EntryPtr * option error)) :=
  r <- ReadEntryAtLogOffset idx (entry s) (offset s) ;;
  match r with
  | (_, Some err) => Returned (s, (nilEntry, Some err))
  | (e, None) =>
      let s := {| entry := e; offset := offset s |} in
      if (Offset (entry s) =? 0) && negb (offset s =? 0)
      then Returned (s, (nilEntry, Some io_EOF))
      else Returned ({| entry := entry s; offset := int64 (offset s + 1) |},
                     (scannerEntry, None))
  end.

(** ** Vocabulary of the statements *)

(** Typing of the store: its [int64] fields are in range, and so is the
    length of the mapped slice. *)
Definition wf_Index (idx : Index) : Prop :=
  in_int64 (bytes (opts idx)) /\ in_int64 (baseOffset (opts idx))
  /\ in_int64 (position idx) /\ len (mmap idx) <= max_int64.

(** The twelve bytes one entry is written as. *)
Definition encodeEntry (e : Entry) (base : Z) : list byte :=
  binary_Write [] Encoding (newRelEntry e base).

(** The [entryWidth] bytes of the mapping at byte offset [f], and the
    entry they decode to. *)
Definition bytesAt (idx : Index) (f : Z) : list byte :=
  firstn (Z.to_nat entryWidth) (skipn (Z.to_nat f) (mmap idx)).

Definition relAt (idx : Index) (f : Z) : relEntry :=
  decodeRel Encoding (bytesAt idx f).

Definition entryAt (idx : Index) (f : Z) : Entry :=
  fill (relAt idx f) zeroEntry (baseOffset (opts idx)).

Definition slot (idx : Index) (i : Z) : Entry := entryAt idx (i * entryWidth).

(** The capacity in slots, [N] of [InitializePosition]. *)
Definition slots (idx : Index) : Z := Z.quot (bytes (opts idx)) entryWidth.

(** The sentinel of recovery: position and size both zero. *)
Definition isSentinel (e : Entry) : bool :=
  (Position e =? 0) && (Size e =? 0).

(** An entry the codec carries without loss: typed as the struct is, not
    below the base offset, and with a relative offset and a position that
    fit the 32-bit fields. *)
Definition valid (base : Z) (e : Entry) : Prop :=
  wf_Entry e /\ base <= Offset e /\ in_int32 (Offset e - base)
  /\ in_int32 (Position e).

(** The store holds exactly the entries [es]: they fill the slots from 0
    up to the write position, inside the mapping. *)
Definition holds (idx : Index) (es : list Entry) : Prop :=
  position idx = entryWidth * len es
  /\ entryWidth * len es <= len (mmap idx)
  /\ firstn (Z.to_nat (entryWidth * len es)) (mmap idx)
     = encodeEntries es (baseOffset (opts idx)).

(** [k] appends of one entry each. *)
Fixpoint appendEach (idx : Index) (es : list Entry) : outcome Index :=
  match es with
  | [] => Returned idx
  | e :: es' =>
      r <- WriteEntries idx [e] ;;
      appendEach (fst r) es'
  end.

(** [n] calls of [Scan] in a row: the scanner they leave and, per call,
    the entry the returned pointer designates when the call returns,
    with the error. *)
Fixpoint scanMany (idx : Index) (s : IndexScanner) (n : nat)
  : outcome (IndexScanner * list (option Entry * option error)) :=
  match n with
  | O => Returned (s, [])
  | S n' =>
      r <- Scan idx s ;;
      let s' := fst r in
      rest <- scanMany idx s' n' ;;
      Returned (fst rest, (deref s' (fst (snd r)), snd (snd r)) :: snd rest)
  end.

(** ** Closing *)

(** [Close]: the bytes left in the file, and the error.  The mapping is
    shared with the file, so the file holds the bytes of [mmap] when
    [Truncate(idx.position)] cuts it (or extends it with zeros); a
    negative position is refused by Truncate and leaves the file as it
    is.  [Sync] and [file.Close] are calls to the operating system, taken
    to succeed. *)
Definition Close (idx : Index) : list byte * option error :=
  if position idx <? 0 then (mmap idx, Some errTruncateFailed)
  else (file_Truncate (mmap idx) (position idx), None).

(** The write position is a whole number of entries. *)
Definition aligned (idx : Index) : Prop :=
  Z.rem (position idx) entryWidth = 0.

(** ** Sample stores *)

(** The scenario of the specification: base offset 100, room for five
    entries, three of them appended. *)
Module Sample.

Definition o : options :=
  {| path := "00000000000000000100.index"; bytes := 60; baseOffset := 100 |}.

Definition e1 : Entry := mkEntry 100 0 50.
Definition e2 : Entry := mkEntry 101 50 60.
Definition e3 : Entry := mkEntry 102 110 40.

(** A store with nothing written: the zero-filled file, position 0. *)
Definition empty : Index :=
  {| opts := o; mmap := repeat Byte.x00 60; position := 0 |}.

(** The store after the three appends. *)
Definition three : Index :=
  {| opts := o;
     mmap := encodeEntries [e1; e2; e3] 100 ++ repeat Byte.x00 24;
     position := 36 |}.

(** A store with room for a single entry. *)
Definition one_slot : Index :=
  {| opts := {| path := "00000000000000000100.index"; bytes := 12;
                baseOffset := 100 |};
     mmap := repeat Byte.x00 12; position := 0 |}.

(** A segment whose base offset is negative. *)
Definition below_zero : Index :=
  {| opts := {| path := "neg.index"; bytes := 24; baseOffset := -1 |};
     mmap := encodeEntries [mkEntry (-1) 0 10; mkEntry 0 10 10] (-1);
     position := 24 |}.

(** The file of [three], opened again at its full length. *)
Definition reopened : Index := set_position three 60.

(** A file whose only record lies below the base offset, opened at its
    full length of two slots. *)
Definition mismatched : Index :=
  {| opts := {| path := "00000000000000000100.index"; bytes := 24;
                baseOffset := 100 |};
     mmap := encodeEntries [mkEntry 50 0 5] 100 ++ repeat Byte.x00 12;
     position := 24 |}.

(** An entry whose position is one past the signed 32-bit field, and a
    two-slot file that holds it. *)
Definition wide : Entry := mkEntry 100 (2 ^ 31) 5.

Definition wide_file : list byte :=
  encodeEntries [wide] 100 ++ repeat Byte.x00 12.

End Sample.

(** * Properties *)

(** Unfolds the range predicates down to numerals, for [lia]. *)
Ltac ranges :=
  unfold valid, wf_Entry, in_int32, in_int64,
    min_int32, max_int32, min_int64, max_int64 in *;
  change (2 ^ 31) with 2147483648 in *;
  change (2 ^ 32) with 4294967296 in *;
  change (2 ^ 63) with 9223372036854775808 in *;
  change (2 ^ 64) with 18446744073709551616 in *.

(** ** Machine integers *)

Section MachineIntegers.

Lemma pow2_double (w : Z) : 0 < w -> 2 ^ w = 2 * 2 ^ (w - 1).
Proof.
  intros Hw. rewrite <- Z.pow_succ_r by lia. f_equal. lia.
Qed.

Lemma wrap_in_range (w x : Z) :
  0 < w -> - 2 ^ (w - 1) <= x < 2 ^ (w - 1) -> wrap w x = x.
Proof.
  intros Hw Hx. unfold wrap. rewrite (pow2_double w Hw).
  rewrite Z.mod_small; lia.
Qed.

Lemma wrap_bounds (w x : Z) :
  0 < w -> - 2 ^ (w - 1) <= wrap w x < 2 ^ (w - 1).
Proof.
  intros Hw. unfold wrap.
  assert (0 < 2 ^ (w - 1)) by (apply Z.pow_pos_nonneg; lia).
  pose proof (Z.mod_pos_bound (x + 2 ^ (w - 1)) (2 ^ w)) as B.
  rewrite (pow2_double w Hw) in *. lia.
Qed.

Lemma int64_id (x : Z) : in_int64 x -> int64 x = x.
Proof.
  unfold in_int64, min_int64, max_int64, int64. intros H.
  apply wrap_in_range; [lia|]. change (64 - 1) with 63. lia.
Qed.

Lemma int_id (x : Z) : in_int64 x -> int x = x.
Proof. exact (int64_id x). Qed.

Lemma int32_id (x : Z) : in_int32 x -> int32 x = x.
Proof.
  unfold in_int32, min_int32, max_int32, int32. intros H.
  apply wrap_in_range; [lia|]. change (32 - 1) with 31. lia.
Qed.

Lemma int64_range (x : Z) : in_int64 (int64 x).
Proof.
  unfold in_int64, min_int64, max_int64, int64.
  pose proof (wrap_bounds 64 x). change (64 - 1) with 63 in *. lia.
Qed.

Lemma int32_range (x : Z) : in_int32 (int32 x).
Proof.
  unfold in_int32, min_int32, max_int32, int32.
  pose proof (wrap_bounds 32 x). change (32 - 1) with 31 in *. lia.
Qed.

(** Storing an [int32] as [uint32] and reading it back. *)
Lemma int32_uint32 (x : Z) : in_int32 x -> int32 (uint32 x) = x.
Proof.
  unfold in_int32, min_int32, max_int32, int32, uint32, wrap.
  change (32 - 1) with 31. intros H.
  rewrite Zplus_mod_idemp_l.
  rewrite Z.mod_small; [lia|].
  change (2 ^ 32) with (2 * 2 ^ 31). lia.
Qed.

Lemma uint_int (x : Z) : uint (int x) = x mod 2 ^ 64.
Proof.
  unfold uint, int, wrap. change (64 - 1) with 63.
  rewrite Zminus_mod_idemp_l. f_equal. lia.
Qed.

(** The midpoint of [sort.Search]: the detour through [uint] keeps it
    exact even when [i + j] overflows an [int]. *)
Lemma midpoint (i j : Z) :
  0 <= i <= max_int64 -> 0 <= j <= max_int64 ->
  int (Z.shiftr (uint (int (i + j))) 1) = (i + j) / 2.
Proof.
  intros Hi Hj.
  rewrite uint_int, Z.mod_small by (ranges; lia).
  rewrite Z.shiftr_div_pow2 by lia. change (2 ^ 1) with 2.
  apply int_id.
  assert (0 <= (i + j) / 2) by (apply Z.div_pos; lia).
  assert ((i + j) / 2 < 9223372036854775808)
    by (apply Z.div_lt_upper_bound; ranges; lia).
  ranges; lia.
Qed.

End MachineIntegers.

(** ** The entry codec *)

Section Codec.

Lemma Uint32_PutUint32 (o : ByteOrder) (v : Z) :
  Uint32 o (PutUint32 o v) = v mod 2 ^ 32.
Proof.
  destruct o; cbn [Uint32 PutUint32 nth];
    rewrite !byte.unsigned_of_Z; unfold byte.wrap;
    rewrite <- !Z.land_ones by lia; prove_Zeq_bitwise.
Qed.

Lemma PutUint32_length (o : ByteOrder) (v : Z) :
  length (PutUint32 o v) = 4%nat.
Proof. destruct o; reflexivity. Qed.

Lemma uint32_idem (x : Z) : uint32 x mod 2 ^ 32 = uint32 x.
Proof. unfold uint32. apply Z.mod_mod. lia. Qed.

Lemma binary_Write_length (b : list byte) (o : ByteOrder) (rel : relEntry) :
  len (binary_Write b o rel) = len b + entryWidth.
Proof.
  unfold binary_Write, len. rewrite !length_app, !PutUint32_length.
  change entryWidth with 12. lia.
Qed.

(** Decoding the twelve bytes of a written record (whatever follows
    them) gives the record back. *)
Lemma decodeRel_binary_Write (o : ByteOrder) (rel : relEntry) (rest : list byte) :
  in_int32 (relOffset rel) -> in_int32 (relPosition rel) ->
  in_int32 (relSize rel) ->
  decodeRel o (binary_Write [] o rel ++ rest) = rel.
Proof.
  intros Ho Hp Hs. unfold decodeRel, binary_Write.
  destruct rel as [ro rp rs]; cbn [relOffset relPosition relSize] in *.
  cbn [app].
  assert (P : forall v, exists a b c d, PutUint32 o v = [a; b; c; d]).
  { intros v. destruct o; cbn; eauto. }
  destruct (P (uint32 ro)) as (a1 & b1 & c1 & d1 & E1).
  destruct (P (uint32 rp)) as (a2 & b2 & c2 & d2 & E2).
  destruct (P (uint32 rs)) as (a3 & b3 & c3 & d3 & E3).
  rewrite E1, E2, E3. cbn [app firstn skipn].
  rewrite <- E1, <- E2, <- E3, !Uint32_PutUint32, !uint32_idem.
  rewrite !int32_uint32 by assumption. reflexivity.
Qed.

Lemma binary_Read_binary_Write (o : ByteOrder) (rel : relEntry) :
  in_int32 (relOffset rel) -> in_int32 (relPosition rel) ->
  in_int32 (relSize rel) ->
  binary_Read (binary_Write [] o rel) o = Some rel.
Proof.
  intros Ho Hp Hs. unfold binary_Read.
  rewrite binary_Write_length. cbn [len length Z.of_nat].
  rewrite Z.ltb_irrefl.
  rewrite <- (app_nil_r (binary_Write [] o rel)).
  now rewrite decodeRel_binary_Write.
Qed.

Lemma newRelEntry_valid (base : Z) (e : Entry) :
  valid base e ->
  newRelEntry e base
  = {| relOffset := Offset e - base; relPosition := Position e;
       relSize := Size e |}.
Proof.
  intros (Hwf & Hge & Hrel & Hpos). unfold newRelEntry.
  rewrite (int64_id (Offset e - base)).
  - now rewrite !int32_id.
  - ranges; lia.
Qed.

Lemma fill_newRelEntry (base : Z) (e e' : Entry) :
  valid base e -> fill (newRelEntry e base) e' base = e.
Proof.
  intros Hv. rewrite (newRelEntry_valid base e Hv).
  destruct Hv as ((Ho & _ & _) & _). unfold fill.
  cbn [relOffset relPosition relSize].
  replace (base + (Offset e - base)) with (Offset e) by lia.
  rewrite int64_id by assumption. now destruct e.
Qed.

(** C2.  For every entry whose offset is not below the base offset and
    whose relative offset, position and size fit the 32-bit fields,
    decoding after encoding is the identity: filling an entry from
    [newRelEntry entry baseOffset] with the same base offset gives the
    entry back, position and size passed through unchanged; and the
    record survives its twelve bytes on disk. *)
Theorem codec_round_trip (e e' : Entry) (base : Z) :
  wf_Entry e -> Offset e >= base ->
  in_int32 (Offset e - base) -> in_int32 (Position e) -> in_int32 (Size e) ->
  fill (newRelEntry e base) e' base = e
  /\ relPosition (newRelEntry e base) = Position e
  /\ relSize (newRelEntry e base) = Size e
  /\ binary_Read (binary_Write [] Encoding (newRelEntry e base)) Encoding
     = Some (newRelEntry e base).
Proof.
  intros Hwf Hge Hrel Hpos Hsize.
  assert (Hv : valid base e).
  { split; [assumption | split; [lia | split; assumption]]. }
  split; [exact (fill_newRelEntry base e e' Hv)|].
  rewrite (newRelEntry_valid base e Hv). cbn [relPosition relSize].
  repeat split. now apply binary_Read_binary_Write.
Qed.

Lemma codec_round_trip_witness :
  fill (newRelEntry (mkEntry 101 50 60) 100) zeroEntry 100 = mkEntry 101 50 60
  /\ relPosition (newRelEntry (mkEntry 101 50 60) 100) = 50
  /\ relSize (newRelEntry (mkEntry 101 50 60) 100) = 60
  /\ binary_Read (binary_Write [] Encoding (newRelEntry (mkEntry 101 50 60) 100))
       Encoding
     = Some (newRelEntry (mkEntry 101 50 60) 100).
Proof.
  apply (codec_round_trip (mkEntry 101 50 60) zeroEntry 100);
    ranges; cbn; lia.
Defined.

End Codec.

(** ** Slices and the encoded log *)

Section Slices.

Context {A : Type}.

(** A source that fills the destination replaces it. *)
Lemma copy_exact (dst src : list A) :
  length dst = length src -> fst (copy dst src) = src.
Proof.
  intros E. unfold copy. cbn [fst]. rewrite E, Nat.min_id.
  rewrite firstn_all, <- E, skipn_all. apply app_nil_r.
Qed.

End Slices.

Section EncodedLog.

Variable base : Z.

Lemma encodeEntry_length (e : Entry) :
  length (encodeEntry e base) = 12%nat.
Proof.
  unfold encodeEntry, binary_Write.
  rewrite !length_app, !PutUint32_length. reflexivity.
Qed.

Lemma encodeEntries_flat (es : list Entry) :
  encodeEntries es base = flat_map (fun e => encodeEntry e base) es.
Proof.
  unfold encodeEntries.
  enough (G : forall acc,
             fold_left (fun b entry =>
                          binary_Write b Encoding (newRelEntry entry base))
                       es acc
             = acc ++ flat_map (fun e => encodeEntry e base) es)
    by (rewrite G; reflexivity).
  induction es as [|e es IH]; intros acc; cbn [fold_left flat_map].
  - now rewrite app_nil_r.
  - rewrite IH. unfold encodeEntry, binary_Write. cbn [app].
    now rewrite <- !app_assoc.
Qed.

Lemma encodeEntries_app (es es' : list Entry) :
  encodeEntries (es ++ es') base
  = encodeEntries es base ++ encodeEntries es' base.
Proof. rewrite !encodeEntries_flat. apply flat_map_app. Qed.

Lemma encodeEntries_length (es : list Entry) :
  len (encodeEntries es base) = entryWidth * len es.
Proof.
  rewrite encodeEntries_flat. unfold len.
  induction es as [|e es IH]; cbn [flat_map length]; [reflexivity|].
  rewrite length_app, encodeEntry_length.
  change entryWidth with 12 in *. lia.
Qed.

(** The twelve bytes of the [i]-th record inside the encoded log. *)
Lemma encodeEntries_nth (es : list Entry) (i : nat) (rest : list byte) :
  (i < length es)%nat ->
  firstn 12 (skipn (12 * i) (encodeEntries es base ++ rest))
  = encodeEntry (nth i es zeroEntry) base.
Proof.
  rewrite encodeEntries_flat. revert i.
  induction es as [|e es IH]; intros i Hi; cbn [length] in Hi; [lia|].
  cbn [flat_map]. rewrite <- app_assoc.
  destruct i as [|i].
  - rewrite Nat.mul_0_r. cbn [skipn nth].
    rewrite firstn_app, encodeEntry_length, Nat.sub_diag, firstn_O, app_nil_r.
    apply firstn_all2. rewrite encodeEntry_length. lia.
  - replace (12 * S i)%nat with (12 * i + length (encodeEntry e base))%nat
      by (rewrite encodeEntry_length; lia).
    rewrite <- skipn_skipn, skipn_app, skipn_all, Nat.sub_diag.
    cbn [app skipn nth]. apply IH. lia.
Qed.

Lemma decode_encodeEntry (e d : Entry) (rest : list byte) :
  valid base e ->
  fill (decodeRel Encoding (encodeEntry e base ++ rest)) d base = e.
Proof.
  intros Hv. unfold encodeEntry.
  rewrite decodeRel_binary_Write.
  - now apply fill_newRelEntry.
  - apply int32_range.
  - apply int32_range.
  - rewrite (newRelEntry_valid base e Hv). cbn. apply Hv.
Qed.

End EncodedLog.

(** ** Reading and writing the store *)

Section Store.

Lemma int64_add_entryWidth (f : Z) :
  0 <= f -> f <= int64 (f + entryWidth) -> int64 (f + entryWidth) = f + entryWidth.
Proof.
  change entryWidth with 12. unfold int64, wrap. change (64 - 1) with 63.
  intros H0 H. ranges.
  pose proof (Z.mod_pos_bound (f + 12 + 9223372036854775808)
                18446744073709551616 eq_refl) as B.
  pose proof (Z.div_mod (f + 12 + 9223372036854775808)
                18446744073709551616) as D.
  lia.
Qed.

(** [ReadEntryAtFileOffset] in closed form: the boundary check against
    the write position first, then the bounds of the mapping. *)
Lemma ReadEntryAtFileOffset_eq (idx : Index) (e : Entry) (f : Z) :
  ReadEntryAtFileOffset idx e f
  = if position idx <? int64 (f + entryWidth)
    then Returned (e, Some io_EOF)
    else if (0 <=? f) && (f <=? int64 (f + entryWidth))
              && (int64 (f + entryWidth) <=? len (mmap idx))
         then Returned (entryAt idx f, None)
         else Panicked.
Proof.
  unfold ReadEntryAtFileOffset, ReadAt.
  destruct (position idx <? int64 (f + entryWidth)); [reflexivity|].
  unfold slice.
  destruct ((0 <=? f) && (f <=? int64 (f + entryWidth))
            && (int64 (f + entryWidth) <=? len (mmap idx))) eqn:E;
    [|reflexivity].
  apply andb_prop in E as [E E3]. apply andb_prop in E as [E1 E2].
  apply Z.leb_le in E1, E2, E3.
  rewrite (int64_add_entryWidth f E1 E2) in *.
  replace (f + entryWidth - f) with entryWidth by lia.
  cbn [bind].
  set (src := firstn (Z.to_nat entryWidth) (skipn (Z.to_nat f) (mmap idx))).
  assert (L : length src = 12%nat).
  { subst src. rewrite length_firstn, length_skipn.
    unfold len in E3. change entryWidth with 12 in *. lia. }
  pose proof (copy_exact (repeat Byte.x00 (Z.to_nat entryWidth)) src) as C.
  rewrite repeat_length in C. specialize (C (eq_sym L)).
  destruct (copy (repeat Byte.x00 (Z.to_nat entryWidth)) src) as [p' n].
  cbn [fst] in C. subst p'. cbn [bind].
  unfold binary_Read, len. rewrite L. cbn [Z.of_nat].
  change (Z.pos (Pos.of_succ_nat 11) <? entryWidth) with false.
  reflexivity.
Qed.

Lemma ReadEntryAtFileOffset_EOF (idx : Index) (e : Entry) (f : Z) :
  position idx < int64 (f + entryWidth) ->
  ReadEntryAtFileOffset idx e f = Returned (e, Some io_EOF).
Proof.
  intros H. rewrite ReadEntryAtFileOffset_eq.
  now replace (position idx <? int64 (f + entryWidth)) with true
    by (symmetry; apply Z.ltb_lt; assumption).
Qed.

Lemma ReadEntryAtFileOffset_ok (idx : Index) (e : Entry) (f : Z) :
  0 <= f -> f + entryWidth <= position idx ->
  f + entryWidth <= len (mmap idx) -> len (mmap idx) <= max_int64 ->
  ReadEntryAtFileOffset idx e f = Returned (entryAt idx f, None).
Proof.
  intros H0 Hp Hl Hm. rewrite ReadEntryAtFileOffset_eq.
  rewrite (int64_id (f + entryWidth)) by (ranges; change entryWidth with 12 in *; lia).
  replace (position idx <? f + entryWidth) with false
    by (symmetry; apply Z.ltb_ge; lia).
  replace (0 <=? f) with true by (symmetry; apply Z.leb_le; lia).
  replace (f <=? f + entryWidth) with true
    by (symmetry; apply Z.leb_le; change entryWidth with 12; lia).
  replace (f + entryWidth <=? len (mmap idx)) with true
    by (symmetry; apply Z.leb_le; lia).
  reflexivity.
Qed.

(** A read that returns without error read inside the mapping. *)
Lemma ReadEntryAtFileOffset_inv (idx : Index) (e e' : Entry) (f : Z) :
  ReadEntryAtFileOffset idx e f = Returned (e', None) ->
  0 <= f /\ f + entryWidth <= position idx
  /\ f + entryWidth <= len (mmap idx) /\ e' = entryAt idx f.
Proof.
  rewrite ReadEntryAtFileOffset_eq.
  destruct (Z.ltb_spec (position idx) (int64 (f + entryWidth))); [discriminate|].
  destruct ((0 <=? f) && (f <=? int64 (f + entryWidth))
            && (int64 (f + entryWidth) <=? len (mmap idx))) eqn:E;
    [|discriminate].
  apply andb_prop in E as [E E3]. apply andb_prop in E as [E1 E2].
  apply Z.leb_le in E1, E2, E3.
  rewrite (int64_add_entryWidth f E1 E2) in *.
  intros [= <-]. auto.
Qed.

(** [WriteEntries] in closed form. *)
Lemma WriteEntries_eq (idx : Index) (es : list Entry) :
  WriteEntries idx es
  = if (0 <=? position idx) && (position idx <=? len (mmap idx))
    then Returned
           ({| opts := opts idx;
               mmap := firstn (Z.to_nat (position idx)) (mmap idx)
                       ++ fst (copy (skipn (Z.to_nat (position idx)) (mmap idx))
                                    (encodeEntries es (baseOffset (opts idx))));
               position := int64 (position idx
                                  + int64 (entryWidth * int64 (len es))) |},
            None)
    else Panicked.
Proof.
  unfold WriteEntries, WriteAt, slice_from.
  destruct ((0 <=? position idx) && (position idx <=? len (mmap idx)));
    [|reflexivity].
  cbn [bind].
  destruct (copy (skipn (Z.to_nat (position idx)) (mmap idx))
                 (encodeEntries es (baseOffset (opts idx)))) as [dst' n].
  reflexivity.
Qed.

(** The write position after an append that does not overflow. *)
Lemma advance_nowrap (p : Z) (n : Z) :
  0 <= p -> 0 <= n -> p + entryWidth * n <= max_int64 ->
  int64 (p + int64 (entryWidth * int64 n)) = p + entryWidth * n.
Proof.
  change entryWidth with 12. intros Hp Hn H.
  rewrite (int64_id n) by (ranges; lia).
  rewrite (int64_id (12 * n)) by (ranges; lia).
  apply int64_id. ranges; lia.
Qed.

End Store.

Section Appending.

(** The mapping after [copy(mmap[p:], enc)]: the bytes before [p] stay,
    the encoded bytes follow as far as the mapping reaches, the bytes
    behind them stay. *)
Lemma copy_into {A : Type} (m enc : list A) (p : nat) :
  (p <= length m)%nat ->
  firstn p m ++ fst (copy (skipn p m) enc)
  = firstn p m ++ firstn (length m - p) enc ++ skipn (p + length enc) m.
Proof.
  intros Hp. f_equal. unfold copy. cbn [fst]. rewrite length_skipn.
  destruct (Nat.le_ge_cases (length m - p) (length enc)) as [H|H].
  - rewrite Nat.min_l by assumption. f_equal.
    rewrite skipn_skipn, !skipn_all2 by lia. reflexivity.
  - rewrite Nat.min_r by assumption.
    rewrite firstn_all, (firstn_all2 enc) by assumption.
    rewrite skipn_skipn. do 2 f_equal. lia.
Qed.

Lemma WriteEntries_ok (idx : Index) (es : list Entry) :
  0 <= position idx <= len (mmap idx) ->
  position idx + entryWidth * len es <= max_int64 ->
  WriteEntries idx es
  = Returned
      ({| opts := opts idx;
          mmap := firstn (Z.to_nat (position idx)) (mmap idx)
                  ++ firstn (length (mmap idx) - Z.to_nat (position idx))
                            (encodeEntries es (baseOffset (opts idx)))
                  ++ skipn (Z.to_nat (position idx)
                            + length (encodeEntries es (baseOffset (opts idx))))
                           (mmap idx);
          position := position idx + entryWidth * len es |},
       None).
Proof.
  intros Hp Hmax. rewrite WriteEntries_eq.
  replace (0 <=? position idx) with true by (symmetry; apply Z.leb_le; lia).
  replace (position idx <=? len (mmap idx)) with true
    by (symmetry; apply Z.leb_le; lia).
  cbn [andb]. rewrite copy_into by (unfold len in Hp; lia).
  rewrite advance_nowrap; try reflexivity; unfold len in *; lia.
Qed.

Lemma WriteEntries_panics (idx : Index) (es : list Entry) :
  position idx < 0 \/ len (mmap idx) < position idx ->
  WriteEntries idx es = Panicked.
Proof.
  intros H. rewrite WriteEntries_eq.
  destruct (Z.leb_spec 0 (position idx)); [|reflexivity].
  destruct (Z.leb_spec (position idx) (len (mmap idx))); [lia|reflexivity].
Qed.

(** Appending within the capacity keeps the store holding its entries. *)
Lemma WriteEntries_holds (idx : Index) (es new : list Entry) :
  holds idx es -> len (mmap idx) <= max_int64 ->
  entryWidth * (len es + len new) <= len (mmap idx) ->
  exists idx',
    WriteEntries idx new = Returned (idx', None)
    /\ holds idx' (es ++ new) /\ opts idx' = opts idx
    /\ len (mmap idx') = len (mmap idx).
Proof.
  intros (Hpos & Hcap & Hbytes) Hmax Hfit.
  assert (Hk : 0 <= len es) by apply Nat2Z.is_nonneg.
  assert (Hj : 0 <= len new) by apply Nat2Z.is_nonneg.
  change entryWidth with 12 in *.
  eexists. split.
  { apply WriteEntries_ok; change entryWidth with 12; lia. }
  pose proof (encodeEntries_length (baseOffset (opts idx)) new) as Lnew.
  change entryWidth with 12 in Lnew. unfold len in Lnew.
  set (enc := encodeEntries new (baseOffset (opts idx))) in *.
  assert (Lmm : length (firstn (Z.to_nat (position idx)) (mmap idx)
                        ++ firstn (length (mmap idx) - Z.to_nat (position idx)) enc
                        ++ skipn (Z.to_nat (position idx) + length enc) (mmap idx))
                = length (mmap idx)).
  { rewrite !length_app, !length_firstn, length_skipn. unfold len in *. lia. }
  split; [|split; [reflexivity | cbn [mmap]; unfold len; now rewrite Lmm]].
  unfold holds. cbn [opts mmap position]. change entryWidth with 12.
  assert (Lapp : len (es ++ new) = len es + len new).
  { unfold len. rewrite length_app. lia. }
  rewrite Lapp.
  split; [lia | split; [unfold len at 3; rewrite Lmm; exact Hfit|]].
  rewrite encodeEntries_app, <- Hbytes. fold enc.
  rewrite (firstn_all2 enc) by (unfold len in *; lia).
  rewrite Hpos, app_assoc.
  replace (Z.to_nat (12 * (len es + len new)))
    with (length (firstn (Z.to_nat (12 * len es)) (mmap idx) ++ enc)).
  - now rewrite firstn_app, firstn_all, Nat.sub_diag, firstn_O, app_nil_r.
  - rewrite length_app, length_firstn. unfold len in *. lia.
Qed.

(** In a store that holds [es], slot [i] decodes to the [i]-th entry. *)
Lemma entryAt_holds (idx : Index) (es : list Entry) (i : nat) :
  holds idx es -> Forall (valid (baseOffset (opts idx))) es ->
  (i < length es)%nat ->
  entryAt idx (entryWidth * Z.of_nat i) = nth i es zeroEntry.
Proof.
  intros (Hpos & Hcap & Hbytes) Hv Hi.
  unfold entryAt, relAt, bytesAt. change entryWidth with 12 in *.
  rewrite <- (firstn_skipn (Z.to_nat (12 * len es)) (mmap idx)), Hbytes.
  replace (Z.to_nat (12 * Z.of_nat i)) with (12 * i)%nat by lia.
  change (Z.to_nat 12) with 12%nat.
  rewrite encodeEntries_nth by assumption.
  rewrite <- (app_nil_r (encodeEntry _ _)).
  apply decode_encodeEntry.
  rewrite Forall_forall in Hv. apply Hv, nth_In, Hi.
Qed.

(** Single appends from a store that holds [es], within the capacity. *)
Lemma appendEach_holds (new : list Entry) :
  forall (idx : Index) (es : list Entry),
    holds idx es -> len (mmap idx) <= max_int64 ->
    entryWidth * (len es + len new) <= len (mmap idx) ->
    exists idx',
      appendEach idx new = Returned idx'
      /\ holds idx' (es ++ new) /\ opts idx' = opts idx
      /\ len (mmap idx') = len (mmap idx).
Proof.
  induction new as [|e new IH]; intros idx es Hh Hmax Hfit.
  - exists idx. rewrite app_nil_r. cbn. auto.
  - unfold len in Hfit. cbn [length] in Hfit.
    destruct (WriteEntries_holds idx es [e] Hh Hmax) as (idx1 & W & H1 & O1 & L1).
    { unfold len in *. cbn [length].
      change entryWidth with 12 in *. lia. }
    destruct (IH idx1 (es ++ [e]) H1) as (idx2 & A & H2 & O2 & L2).
    + now rewrite L1.
    + rewrite L1. unfold len in *. rewrite length_app. cbn [length].
      change entryWidth with 12 in *. lia.
    + exists idx2. cbn [appendEach]. rewrite W. cbn [bind fst].
      rewrite <- app_assoc in H2. cbn [app] in H2.
      split; [exact A | split; [exact H2 | split; congruence]].
Qed.

End Appending.

(** ** Reads at the boundary *)

Section BoundaryRead.

Lemma appendEach_position (es : list Entry) (idx0 : Index) :
  position idx0 = 0 -> len (mmap idx0) <= max_int64 ->
  entryWidth * len es <= len (mmap idx0) ->
  exists idx,
    appendEach idx0 es = Returned idx /\ holds idx es
    /\ opts idx = opts idx0 /\ len (mmap idx) = len (mmap idx0).
Proof.
  intros Hp Hmax Hfit.
  apply (appendEach_holds es idx0 []); try assumption.
  unfold holds. rewrite Hp. cbn. repeat split.
  unfold len. lia.
Qed.

(** C3, as the code has it.  On a store whose write position does not
    exceed the mapping, and for a byte offset [f] that is not negative
    and leaves room for [entryWidth] below the largest [int64],
    [ReadEntryAtFileOffset] fails with [io.EOF] exactly when
    [f + entryWidth > writePosition], and otherwise returns the entry
    decoded from the [entryWidth] bytes at [f].  In particular, after
    [k] appends of one valid entry each to an empty store with room for
    them (and with slot [k] still addressable by an [int64]), reading
    slot [k] fails with [io.EOF], while reading slot [k - 1] returns the
    last appended entry. *)
Theorem ReadEntryAtFileOffset_boundary
    (idx : Index) (e : Entry) (f : Z) (idx0 : Index) (es : list Entry) :
  position idx <= len (mmap idx) -> len (mmap idx) <= max_int64 ->
  0 <= f <= max_int64 - entryWidth ->
  position idx0 = 0 -> len (mmap idx0) <= max_int64 ->
  Forall (valid (baseOffset (opts idx0))) es ->
  entryWidth * len es <= len (mmap idx0) ->
  entryWidth * len es <= max_int64 - entryWidth ->
  (ReadEntryAtFileOffset idx e f = Returned (e, Some io_EOF)
   <-> f + entryWidth > position idx)
  /\ (f + entryWidth <= position idx ->
      ReadEntryAtFileOffset idx e f = Returned (entryAt idx f, None))
  /\ exists idxk,
       appendEach idx0 es = Returned idxk
       /\ position idxk = entryWidth * len es
       /\ ReadEntryAtLogOffset idxk e (len es) = Returned (e, Some io_EOF)
       /\ (es <> [] ->
           ReadEntryAtLogOffset idxk e (len es - 1)
           = Returned (last es zeroEntry, None)).
Proof.
  intros Hpos Hmax Hf Hp0 Hmax0 Hv Hfit Hroom.
  assert (Hok : f + entryWidth <= position idx ->
                ReadEntryAtFileOffset idx e f = Returned (entryAt idx f, None)).
  { intros H. apply ReadEntryAtFileOffset_ok; lia. }
  split; [|split; [exact Hok|]].
  - split.
    + intros HE. destruct (Z_le_gt_dec (f + entryWidth) (position idx)) as [L|G];
        [|exact G].
      rewrite (Hok L) in HE. discriminate.
    + intros G. apply ReadEntryAtFileOffset_EOF.
      rewrite int64_id; [lia|]. ranges. change entryWidth with 12 in *. lia.
  - destruct (appendEach_position es idx0 Hp0 Hmax0 Hfit)
      as (idxk & A & Hh & Ho & Hl).
    pose proof Hh as (Hpk & Hck & _).
    assert (Hk : 0 <= len es) by apply Nat2Z.is_nonneg.
    change entryWidth with 12 in *.
    exists idxk. repeat split; try assumption.
    + unfold ReadEntryAtLogOffset. change entryWidth with 12.
      rewrite (int64_id (len es * 12)) by (ranges; lia).
      apply ReadEntryAtFileOffset_EOF. change entryWidth with 12.
      rewrite int64_id by (ranges; lia). lia.
    + intros Hne.
      assert (Hlen : 1 <= len es).
      { destruct es; [contradiction | unfold len; cbn [length]; lia]. }
      unfold ReadEntryAtLogOffset. change entryWidth with 12.
      rewrite (int64_id ((len es - 1) * 12)) by (ranges; lia).
      rewrite ReadEntryAtFileOffset_ok; change entryWidth with 12; try lia.
      replace ((len es - 1) * 12)
        with (entryWidth * Z.of_nat (length es - 1))
        by (unfold len in *; change entryWidth with 12; lia).
      rewrite (entryAt_holds idxk es (length es - 1) Hh);
        [| now rewrite Ho | unfold len in *; lia].
      f_equal. f_equal.
      destruct es as [|x es' _] using rev_ind; [contradiction|].
      rewrite last_last, length_app, app_nth2 by (cbn; lia).
      cbn [length].
      now replace (length es' + 1 - 1 - length es')%nat with 0%nat by lia.
Qed.

End BoundaryRead.

(** Closes a goal about concrete stores and numbers by evaluation. *)
Ltac evaluate :=
  vm_compute;
  first [ reflexivity | discriminate
        | intuition (first [reflexivity | discriminate]) ].

Section BoundaryReadCases.

Import Sample.

Lemma ReadEntryAtFileOffset_boundary_witness :
  (ReadEntryAtFileOffset three zeroEntry 12 = Returned (zeroEntry, Some io_EOF)
   <-> 12 + entryWidth > position three)
  /\ (12 + entryWidth <= position three ->
      ReadEntryAtFileOffset three zeroEntry 12
      = Returned (entryAt three 12, None))
  /\ exists idxk,
       appendEach empty [e1; e2; e3] = Returned idxk
       /\ position idxk = entryWidth * len [e1; e2; e3]
       /\ ReadEntryAtLogOffset idxk zeroEntry (len [e1; e2; e3])
          = Returned (zeroEntry, Some io_EOF)
       /\ ([e1; e2; e3] <> [] ->
           ReadEntryAtLogOffset idxk zeroEntry (len [e1; e2; e3] - 1)
           = Returned (last [e1; e2; e3] zeroEntry, None)).
Proof.
  apply (ReadEntryAtFileOffset_boundary three zeroEntry 12 empty [e1; e2; e3]);
    try (repeat constructor); evaluate.
Defined.

(** C3 as stated does not hold for every byte offset and every store: on
    the store [three] the offset -12 passes the boundary check and panics
    on the slice; so does an offset whose [f + entryWidth] overflows; so
    does slot [k - 1] after [k = 2] appends to a store with room for one;
    and after the append of an entry whose position is [2^31], slot 0
    reads back with position [- 2^31], not as the appended entry. *)
Lemma ReadEntryAtFileOffset_not_total :
  (~ (-12 + entryWidth > position three)
   /\ ReadEntryAtFileOffset three zeroEntry (-12) = Panicked)
  /\ (max_int64 - 5 + entryWidth > position three
      /\ ReadEntryAtFileOffset three zeroEntry (max_int64 - 5) = Panicked)
  /\ (exists idx2,
         appendEach one_slot [e1; e2] = Returned idx2
         /\ ReadEntryAtLogOffset idx2 zeroEntry (2 - 1) = Panicked)
  /\ exists idx1,
       appendEach empty [wide] = Returned idx1
       /\ ReadEntryAtLogOffset idx1 zeroEntry (1 - 1)
          = Returned (mkEntry 100 (- 2 ^ 31) 5, None)
       /\ mkEntry 100 (- 2 ^ 31) 5 <> wide.
Proof.
  split; [split; evaluate | split; [split; evaluate|]].
  split; eexists; (split; [vm_compute; reflexivity | evaluate]).
Qed.

End BoundaryReadCases.

(** ** Truncation *)

Section Truncation.

Import Sample.

(** [TruncateEntries] in closed form, for a count whose byte position
    [number * entryWidth] is an [int]. *)
Lemma TruncateEntries_nowrap (idx : Index) (number : Z) :
  in_int64 (number * entryWidth) ->
  TruncateEntries idx number
  = if number * entryWidth >? position idx
    then Returned (idx, Some errBadTruncateNumber)
    else Returned (set_position idx (number * entryWidth), None).
Proof.
  intros H. unfold TruncateEntries.
  now rewrite (int_id _ H), (int64_id _ H).
Qed.

(** C4, as the code has it.  For every count that is not negative and
    whose byte position [count * entryWidth] does not overflow,
    [TruncateEntries count] fails with the bad-truncate error exactly
    when [count * entryWidth] exceeds the write position, and then
    leaves the store as it was; otherwise it sets the write position to
    [count * entryWidth] and leaves every byte of the mapping (and the
    options) unchanged. *)
Theorem TruncateEntries_rewinds (idx : Index) (count : Z) :
  0 <= count -> count * entryWidth <= max_int64 ->
  exists idx' err,
    TruncateEntries idx count = Returned (idx', err)
    /\ (err = Some errBadTruncateNumber
        <-> count * entryWidth > position idx)
    /\ (err = Some errBadTruncateNumber -> idx' = idx)
    /\ (err <> Some errBadTruncateNumber ->
        err = None /\ position idx' = count * entryWidth)
    /\ mmap idx' = mmap idx /\ opts idx' = opts idx.
Proof.
  intros H0 Hmax.
  rewrite TruncateEntries_nowrap
    by (ranges; change entryWidth with 12 in *; lia).
  destruct (Z.gtb_spec (count * entryWidth) (position idx)) as [G|L];
    eexists; eexists; (split; [reflexivity|]).
  - repeat split; try tauto; lia.
  - repeat split; try discriminate; try tauto; lia.
Qed.

Lemma TruncateEntries_rewinds_witness :
  exists idx' err,
    TruncateEntries three 1 = Returned (idx', err)
    /\ (err = Some errBadTruncateNumber <-> 1 * entryWidth > position three)
    /\ (err = Some errBadTruncateNumber -> idx' = three)
    /\ (err <> Some errBadTruncateNumber ->
        err = None /\ position idx' = 1 * entryWidth)
    /\ mmap idx' = mmap three /\ opts idx' = opts three.
Proof.
  apply (TruncateEntries_rewinds three 1); evaluate.
Defined.

(** C4 as stated fails for a large count: [2^60 * entryWidth] exceeds
    the write position, yet the product wraps to [- 2^62] and the call
    succeeds, leaving a negative write position. *)
Lemma TruncateEntries_wraps :
  0 <= 2 ^ 60 /\ 2 ^ 60 * entryWidth > position three
  /\ TruncateEntries three (2 ^ 60)
     = Returned (set_position three (- 2 ^ 62), None).
Proof. evaluate. Qed.

(** C9, as the code has it.  For every negative count [n] whose byte
    position [n * entryWidth] does not overflow, on a store whose write
    position is not below [n * entryWidth] (so on every store with a
    write position that is not negative), [TruncateEntries n] succeeds
    and sets the write position to the negative [n * entryWidth]; after
    it, every read at a byte offset [f] above [(n - 1) * entryWidth]
    and not above [max_int64 - entryWidth] (so every read at an offset
    from 0 to [max_int64 - entryWidth]) fails with [io.EOF]. *)
Theorem TruncateEntries_negative (idx : Index) (n : Z) (e : Entry) (f : Z) :
  n < 0 -> min_int64 <= n * entryWidth -> n * entryWidth <= position idx ->
  (n - 1) * entryWidth < f <= max_int64 - entryWidth ->
  TruncateEntries idx n
  = Returned (set_position idx (n * entryWidth), None)
  /\ n * entryWidth < 0
  /\ ReadEntryAtFileOffset (set_position idx (n * entryWidth)) e f
     = Returned (e, Some io_EOF).
Proof.
  intros Hn Hmin Hpos Hf. change entryWidth with 12 in *.
  split; [|split; [lia|]].
  - rewrite TruncateEntries_nowrap
      by (ranges; change entryWidth with 12 in *; lia).
    change entryWidth with 12.
    destruct (Z.gtb_spec (n * 12) (position idx)); [lia|reflexivity].
  - apply ReadEntryAtFileOffset_EOF. cbn [position set_position].
    change entryWidth with 12.
    rewrite int64_id by (ranges; lia). lia.
Qed.

Lemma TruncateEntries_negative_witness :
  TruncateEntries three (-1)
  = Returned (set_position three (-1 * entryWidth), None)
  /\ -1 * entryWidth < 0
  /\ ReadEntryAtFileOffset (set_position three (-1 * entryWidth)) zeroEntry 0
     = Returned (zeroEntry, Some io_EOF).
Proof.
  apply (TruncateEntries_negative three (-1) zeroEntry 0); evaluate.
Defined.

(** C9 as stated fails four ways: on a store whose write position is
    already [-24] the count [-1] is rejected; the count [- 2^60] is
    rejected because its byte position wraps to [2^62]; and after
    [TruncateEntries (-1)] a read at byte offset [-24] panics instead
    of failing with [io.EOF], and so does a read at the offset
    [max_int64 - 5], whose [offset + entryWidth] wraps. *)
Lemma TruncateEntries_negative_fails :
  TruncateEntries (set_position three (-24)) (-1)
  = Returned (set_position three (-24), Some errBadTruncateNumber)
  /\ TruncateEntries three (- 2 ^ 60)
     = Returned (three, Some errBadTruncateNumber)
  /\ TruncateEntries three (-1) = Returned (set_position three (-12), None)
  /\ ReadEntryAtFileOffset (set_position three (-12)) zeroEntry (-24)
     = Panicked
  /\ ReadEntryAtFileOffset (set_position three (-12)) zeroEntry (max_int64 - 5)
     = Panicked.
Proof. evaluate. Qed.

End Truncation.

(** ** Appending without a capacity check *)

Section Capacity.

Import Sample.

(** The slot at the write position after [copy]: the first encoded
    record, when the mapping has room for one. *)
Lemma first_written (m a b : list byte) (p : nat) :
  length a = 12%nat -> (p + 12 <= length m)%nat ->
  firstn 12 (skipn p (firstn p m ++ firstn (length m - p) (a ++ b)
                      ++ skipn (p + length (a ++ b)) m))
  = a.
Proof.
  intros La Hp.
  rewrite skipn_app, length_firstn, skipn_all2 by (rewrite length_firstn; lia).
  replace (p - Nat.min p (length m))%nat with 0%nat by lia.
  cbn [app skipn].
  rewrite firstn_app, firstn_firstn, length_firstn, length_app, La.
  replace (Nat.min 12 (length m - p)) with 12%nat by lia.
  replace (12 - Nat.min (length m - p) (12 + length b))%nat with 0%nat by lia.
  rewrite firstn_O, app_nil_r, firstn_app, La, Nat.sub_diag, firstn_O, app_nil_r.
  apply firstn_all2. lia.
Qed.

(** C10, as the code has it.  [WriteEntries] has no capacity check: on a
    store whose write position lies inside the mapping, every sequence
    of entries is accepted and the write position advances by
    [entryWidth * len(entries)], also beyond the capacity; the copy is
    cut off at the end of the mapping, whose length does not change, so
    the slots beyond it are counted without their bytes being stored.
    Once the write position is beyond the capacity, the next
    [WriteEntries] panics on its slice.  (The advanced position is
    taken to fit an [int64].) *)
Theorem WriteEntries_unchecked (idx : Index) (es es' : list Entry) :
  0 <= position idx <= len (mmap idx) ->
  position idx + entryWidth * len es <= max_int64 ->
  exists idx',
    WriteEntries idx es = Returned (idx', None)
    /\ position idx' = position idx + entryWidth * len es
    /\ len (mmap idx') = len (mmap idx)
    /\ mmap idx'
       = firstn (Z.to_nat (position idx)) (mmap idx)
         ++ firstn (Z.to_nat (len (mmap idx) - position idx))
                   (encodeEntries es (baseOffset (opts idx)))
         ++ skipn (Z.to_nat (position idx + entryWidth * len es)) (mmap idx)
    /\ (len (mmap idx) < position idx' -> WriteEntries idx' es' = Panicked).
Proof.
  intros Hp Hmax. eexists. split; [apply WriteEntries_ok; assumption|].
  cbn [position mmap].
  pose proof (encodeEntries_length (baseOffset (opts idx)) es) as Lenc.
  set (enc := encodeEntries es (baseOffset (opts idx))) in *.
  assert (0 <= len es) by apply Nat2Z.is_nonneg.
  unfold len in *. change entryWidth with 12 in *.
  split; [reflexivity|]. split; [|split].
  - rewrite !length_app, !length_firstn, length_skipn. lia.
  - do 2 f_equal; [f_equal; lia|]. f_equal. f_equal. lia.
  - intros Hover. apply WriteEntries_panics. cbn [position mmap].
    right. unfold len.
    rewrite !length_app, !length_firstn, length_skipn. lia.
Qed.

Lemma WriteEntries_unchecked_witness :
  exists idx',
    WriteEntries one_slot [e1; e2] = Returned (idx', None)
    /\ position idx' = position one_slot + entryWidth * len [e1; e2]
    /\ len (mmap idx') = len (mmap one_slot)
    /\ mmap idx'
       = firstn (Z.to_nat (position one_slot)) (mmap one_slot)
         ++ firstn (Z.to_nat (len (mmap one_slot) - position one_slot))
                   (encodeEntries [e1; e2] (baseOffset (opts one_slot)))
         ++ skipn (Z.to_nat (position one_slot + entryWidth * len [e1; e2]))
                  (mmap one_slot)
    /\ (len (mmap one_slot) < position idx' ->
        WriteEntries idx' [e3] = Panicked).
Proof.
  apply (WriteEntries_unchecked one_slot [e1; e2] [e3]); evaluate.
Defined.

(** C10 as stated does not hold for every call: the append of two
    entries to a store with room for one is accepted and leaves the
    write position at 24, beyond the 12 mapped bytes; the next append
    panics instead of returning success.  So does an append at a
    negative write position. *)
Lemma WriteEntries_beyond_capacity_panics :
  (exists idx1,
      WriteEntries one_slot [e1; e2] = Returned (idx1, None)
      /\ position idx1 = 24 /\ len (mmap idx1) = 12
      /\ WriteEntries idx1 [e3] = Panicked)
  /\ WriteEntries (set_position three (-12)) [e1] = Panicked.
Proof.
  split; [|evaluate].
  eexists. split; [vm_compute; reflexivity | evaluate].
Qed.

(** C5, as the code has it.  For every store holding [k] entries,
    truncating to [m] entries, [0 <= m < k], and then appending [j >= 1]
    new entries in one call, the first of them valid for the codec,
    leaves the write position at [(m + j) * entryWidth] (a value that
    fits an [int64]), and reading slot [m] afterwards returns the first
    newly appended entry: the bytes of that slot are those of the new
    entry. *)
Theorem truncate_then_append
    (idx : Index) (old : list Entry) (m : Z)
    (first : Entry) (rest : list Entry) (e : Entry) :
  holds idx old -> len (mmap idx) <= max_int64 ->
  0 <= m < len old ->
  valid (baseOffset (opts idx)) first ->
  (m + len (first :: rest)) * entryWidth <= max_int64 ->
  exists idx1 idx2,
    TruncateEntries idx m = Returned (idx1, None)
    /\ WriteEntries idx1 (first :: rest) = Returned (idx2, None)
    /\ position idx2 = (m + len (first :: rest)) * entryWidth
    /\ bytesAt idx2 (m * entryWidth)
       = encodeEntry first (baseOffset (opts idx))
    /\ ReadEntryAtLogOffset idx2 e m = Returned (first, None).
Proof.
  intros (Hpos & Hcap & _) Hmax Hm Hv Hfit.
  set (new := first :: rest) in *.
  assert (Hj : 1 <= len new).
  { unfold len, new. cbn [length]. lia. }
  change entryWidth with 12 in *.
  exists (set_position idx (m * 12)). eexists.
  split.
  { rewrite TruncateEntries_nowrap
      by (ranges; change entryWidth with 12 in *; lia).
    change entryWidth with 12.
    destruct (Z.gtb_spec (m * 12) (position idx)); [lia|reflexivity]. }
  split.
  { apply WriteEntries_ok; cbn [position mmap set_position];
      change entryWidth with 12; lia. }
  cbn [position mmap opts set_position]. change entryWidth with 12.
  split; [lia|].
  assert (B : bytesAt
                {| opts := opts idx;
                   mmap := firstn (Z.to_nat (m * 12)) (mmap idx)
                           ++ firstn (length (mmap idx) - Z.to_nat (m * 12))
                                     (encodeEntries new (baseOffset (opts idx)))
                           ++ skipn (Z.to_nat (m * 12)
                                     + length (encodeEntries new
                                                 (baseOffset (opts idx))))
                                    (mmap idx);
                   position := m * 12 + 12 * len new |} (m * 12)
              = encodeEntry first (baseOffset (opts idx))).
  { unfold bytesAt. cbn [mmap]. change (Z.to_nat entryWidth) with 12%nat.
    unfold new at 1 2. rewrite encodeEntries_flat. cbn [flat_map].
    apply first_written; [apply encodeEntry_length|].
    unfold len in *. lia. }
  split; [exact B|].
  unfold ReadEntryAtLogOffset. change entryWidth with 12.
  rewrite (int64_id (m * 12)) by (ranges; lia).
  rewrite ReadEntryAtFileOffset_ok; cbn [position mmap];
    change entryWidth with 12; try lia.
  - unfold entryAt, relAt. rewrite B. cbn [opts].
    rewrite <- (app_nil_r (encodeEntry _ _)).
    now rewrite decode_encodeEntry.
  - unfold len in *.
    rewrite !length_app, !length_firstn, length_skipn. lia.
  - unfold len in *.
    rewrite !length_app, !length_firstn, length_skipn. lia.
Qed.

Lemma truncate_then_append_witness :
  exists idx1 idx2,
    TruncateEntries three 1 = Returned (idx1, None)
    /\ WriteEntries idx1 [mkEntry 105 7 9; mkEntry 106 16 3]
       = Returned (idx2, None)
    /\ position idx2
       = (1 + len [mkEntry 105 7 9; mkEntry 106 16 3]) * entryWidth
    /\ bytesAt idx2 (1 * entryWidth)
       = encodeEntry (mkEntry 105 7 9) (baseOffset (opts three))
    /\ ReadEntryAtLogOffset idx2 zeroEntry 1
       = Returned (mkEntry 105 7 9, None).
Proof.
  apply (truncate_then_append three [e1; e2; e3] 1
           (mkEntry 105 7 9) [mkEntry 106 16 3] zeroEntry);
    evaluate.
Defined.

(** C5 as stated fails for an entry the codec does not carry: after
    truncating [three] to one entry and appending an entry whose
    position is [2^31], slot 1 reads back with position [- 2^31], not as
    the appended entry. *)
Lemma truncate_then_append_wide :
  exists idx1 idx2,
    TruncateEntries three 1 = Returned (idx1, None)
    /\ WriteEntries idx1 [wide] = Returned (idx2, None)
    /\ position idx2 = (1 + 1) * entryWidth
    /\ ReadEntryAtLogOffset idx2 zeroEntry 1
       = Returned (mkEntry 100 (- 2 ^ 31) 5, None)
    /\ mkEntry 100 (- 2 ^ 31) 5 <> wide.
Proof.
  do 2 eexists. split; [vm_compute; reflexivity|].
  split; [vm_compute; reflexivity | evaluate].
Qed.

End Capacity.

(** ** sort.Search *)

Section BinarySearch.

Variable f : Z -> outcome bool.

Lemma pow2_fuel (fuel : nat) :
  2 ^ Z.of_nat (S fuel) = 2 * 2 ^ Z.of_nat fuel.
Proof. rewrite Nat2Z.inj_succ. apply Z.pow_succ_r. lia. Qed.

(** The midpoint lies in [i, j) and halves the interval. *)
Lemma midpoint_bounds (i j : Z) :
  i < j -> i <= (i + j) / 2 < j.
Proof.
  intros H. split.
  - apply Z.div_le_lower_bound; lia.
  - apply Z.div_lt_upper_bound; lia.
Qed.

Lemma midpoint_halves (i j : Z) (fuel : nat) :
  i < j -> j - i < 2 ^ Z.of_nat (S fuel) ->
  j - ((i + j) / 2 + 1) < 2 ^ Z.of_nat fuel
  /\ (i + j) / 2 - i < 2 ^ Z.of_nat fuel.
Proof.
  rewrite pow2_fuel. intros H B.
  pose proof (Z.div_mod (i + j) 2 ltac:(lia)).
  pose proof (Z.mod_pos_bound (i + j) 2 ltac:(lia)).
  lia.
Qed.

(** One pass of the loop, with the midpoint computed. *)
Lemma Search_loop_step (fuel : nat) (i j : Z) :
  0 <= i -> i < j -> j <= max_int64 ->
  Search_loop (S fuel) f i j
  = (b <- f ((i + j) / 2) ;;
     if negb b then Search_loop fuel f ((i + j) / 2 + 1) j
     else Search_loop fuel f i ((i + j) / 2)).
Proof.
  intros Hi Hij Hj. cbn [Search_loop].
  replace (i <? j) with true by (symmetry; apply Z.ltb_lt; assumption).
  rewrite midpoint by lia.
  pose proof (midpoint_bounds i j Hij).
  rewrite (int_id ((i + j) / 2 + 1)) by (ranges; lia).
  reflexivity.
Qed.

Lemma Search_loop_done (fuel : nat) (i j : Z) :
  j <= i -> Search_loop fuel f i j = Returned i.
Proof.
  intros H. destruct fuel; cbn [Search_loop];
    now replace (i <? j) with false by (symmetry; apply Z.ltb_ge; assumption).
Qed.

(** With enough fuel the loop ends unless [f] itself fails to. *)
Lemma Search_loop_total (fuel : nat) :
  forall i j,
    0 <= i -> j <= max_int64 -> j - i < 2 ^ Z.of_nat fuel ->
    (forall h, f h <> Diverged) ->
    Search_loop fuel f i j <> Diverged.
Proof.
  induction fuel as [|fuel IH]; intros i j Hi Hj Hfuel Hf.
  - rewrite Search_loop_done; [discriminate|]. cbn in Hfuel. lia.
  - destruct (Z_lt_le_dec i j) as [L|G].
    + rewrite Search_loop_step by assumption.
      pose proof (midpoint_bounds i j L).
      pose proof (midpoint_halves i j fuel L Hfuel).
      pose proof (Hf ((i + j) / 2)) as Hmid.
      destruct (f ((i + j) / 2)) as [[|]| |]; cbn [bind negb];
        try discriminate; try contradiction; apply IH; try assumption; lia.
    + rewrite Search_loop_done by assumption. discriminate.
Qed.

(** On a predicate that is false below [k] and true from [k] on, the
    loop returns [k]. *)
Lemma Search_loop_found (k : Z) (fuel : nat) :
  forall i j,
    0 <= i <= k -> k <= j -> j <= max_int64 ->
    j - i < 2 ^ Z.of_nat fuel ->
    (forall h, i <= h < k -> f h = Returned false) ->
    (forall h, k <= h < j -> f h = Returned true) ->
    Search_loop fuel f i j = Returned k.
Proof.
  induction fuel as [|fuel IH]; intros i j Hi Hk Hj Hfuel Hlo Hhi.
  - rewrite Search_loop_done; [f_equal|]; cbn in Hfuel; lia.
  - destruct (Z_lt_le_dec i j) as [L|G].
    + rewrite Search_loop_step by (assumption || lia).
      pose proof (midpoint_bounds i j L).
      pose proof (midpoint_halves i j fuel L Hfuel).
      destruct (Z_lt_le_dec ((i + j) / 2) k) as [Lk|Gk].
      * rewrite Hlo by lia. cbn [bind negb].
        apply IH; try lia; intros; [apply Hlo | apply Hhi]; lia.
      * rewrite Hhi by lia. cbn [bind negb].
        apply IH; try lia; intros; [apply Hlo | apply Hhi]; lia.
    + rewrite Search_loop_done by assumption. f_equal. lia.
Qed.

(** Whatever the predicate, a returned index lies in [i, j], and the
    probe just below it answered false. *)
Lemma Search_loop_inv (fuel : nat) :
  forall i j r,
    0 <= i <= j -> j <= max_int64 ->
    Search_loop fuel f i j = Returned r ->
    i <= r <= j /\ (i < r -> f (r - 1) = Returned false).
Proof.
  induction fuel as [|fuel IH]; intros i j r Hi Hj Hr.
  - destruct (Z_lt_le_dec i j) as [L|G].
    + cbn [Search_loop] in Hr.
      replace (i <? j) with true in Hr by (symmetry; apply Z.ltb_lt; lia).
      discriminate.
    + rewrite Search_loop_done in Hr by assumption.
      injection Hr as <-. split; lia.
  - destruct (Z_lt_le_dec i j) as [L|G].
    + rewrite Search_loop_step in Hr by (assumption || lia).
      pose proof (midpoint_bounds i j L) as Hm.
      destruct (f ((i + j) / 2)) as [[|]| |] eqn:E; cbn [bind negb] in Hr;
        try discriminate.
      * apply IH in Hr; [|lia|lia]. destruct Hr as [R1 R2].
        split; [lia|]. intros Hir. apply R2. lia.
      * apply IH in Hr; [|lia|lia]. destruct Hr as [R1 R2].
        split; [lia|]. intros Hir.
        destruct (Z.eq_dec r ((i + j) / 2 + 1)) as [->|Hne].
        -- now replace ((i + j) / 2 + 1 - 1) with ((i + j) / 2) by lia.
        -- apply R2. lia.
    + rewrite Search_loop_done in Hr by assumption.
      injection Hr as <-. split; lia.
Qed.

Lemma Search_unfold (n : Z) :
  Search n f = Search_loop (S (Z.to_nat (Z.log2 n))) f 0 n.
Proof. reflexivity. Qed.

Lemma Search_fuel (n : Z) :
  0 <= n -> n - 0 < 2 ^ Z.of_nat (S (Z.to_nat (Z.log2 n))).
Proof.
  intros Hn. rewrite Nat2Z.inj_succ, Z2Nat.id by apply Z.log2_nonneg.
  destruct (Z.eq_dec n 0) as [->|Hne]; [cbn; lia|].
  pose proof (Z.log2_spec n ltac:(lia)). lia.
Qed.

(** [sort.Search] always comes back. *)
Lemma Search_total (n : Z) :
  in_int64 n -> (forall h, f h <> Diverged) -> Search n f <> Diverged.
Proof.
  intros Hn Hf. rewrite Search_unfold.
  destruct (Z_lt_le_dec n 0) as [L|G].
  - rewrite Search_loop_done by lia. discriminate.
  - apply Search_loop_total; try assumption; try lia.
    + ranges; lia.
    + now apply Search_fuel.
Qed.

Lemma Search_found (n k : Z) :
  0 <= k <= n -> n <= max_int64 ->
  (forall h, 0 <= h < k -> f h = Returned false) ->
  (forall h, k <= h < n -> f h = Returned true) ->
  Search n f = Returned k.
Proof.
  intros Hk Hn Hlo Hhi. rewrite Search_unfold.
  apply Search_loop_found; try assumption; try lia.
  apply Search_fuel. lia.
Qed.

Lemma Search_inv (n r : Z) :
  n <= max_int64 -> Search n f = Returned r ->
  (n < 0 /\ r = 0)
  \/ (0 <= r <= n /\ (0 < r -> f (r - 1) = Returned false)).
Proof.
  intros Hn Hr. rewrite Search_unfold in Hr.
  destruct (Z_lt_le_dec n 0) as [L|G].
  - rewrite Search_loop_done in Hr by lia. injection Hr as <-. now left.
  - right.
    apply (Search_loop_inv (S (Z.to_nat (Z.log2 n))) 0 n r);
      try assumption. lia.
Qed.

End BinarySearch.

(** ** Recovery *)

Section Recovery.

Import Sample.

Lemma isEmptySlot_ok (idx : Index) (i : Z) :
  0 <= i -> i * entryWidth + entryWidth <= position idx ->
  i * entryWidth + entryWidth <= len (mmap idx) ->
  len (mmap idx) <= max_int64 ->
  isEmptySlot idx i = Returned (isSentinel (slot idx i)).
Proof.
  intros Hi Hp Hl Hm. unfold isEmptySlot. change entryWidth with 12 in *.
  rewrite (int_id (i * 12)) by (ranges; lia).
  rewrite (int64_id (i * 12)) by (ranges; lia).
  rewrite ReadEntryAtFileOffset_ok; change entryWidth with 12; try lia.
  reflexivity.
Qed.

Lemma isEmptySlot_inv (idx : Index) (i : Z) (b : bool) :
  in_int64 (i * entryWidth) -> isEmptySlot idx i = Returned b ->
  0 <= i /\ i * entryWidth + entryWidth <= position idx
  /\ i * entryWidth + entryWidth <= len (mmap idx)
  /\ b = isSentinel (slot idx i).
Proof.
  intros Hr. unfold isEmptySlot.
  rewrite (int_id _ Hr), (int64_id _ Hr).
  destruct (ReadEntryAtFileOffset idx zeroEntry (i * entryWidth))
    as [[e' [err|]]| |] eqn:E; cbn [bind]; try discriminate.
  apply ReadEntryAtFileOffset_inv in E as (H0 & Hp & Hl & ->).
  intros [= <-]. change entryWidth with 12 in *.
  repeat split; try lia. 
Qed.

Lemma isEmptySlot_returns (idx : Index) (i : Z) :
  isEmptySlot idx i <> Diverged.
Proof.
  unfold isEmptySlot. rewrite ReadEntryAtFileOffset_eq.
  destruct (position idx <? _); [cbn; discriminate|].
  destruct (_ && _); cbn; discriminate.
Qed.

(** The search of [InitializePosition] comes back on every store. *)
Lemma firstEmptySlot_returns (idx : Index) : firstEmptySlot idx <> Diverged.
Proof.
  unfold firstEmptySlot. apply Search_total.
  - apply int64_range.
  - apply isEmptySlot_returns.
Qed.

(** [InitializePosition] returns or panics; the fuel of the model never
    runs out. *)
Lemma InitializePosition_returns (idx : Index) :
  InitializePosition idx <> Diverged.
Proof.
  unfold InitializePosition.
  pose proof (firstEmptySlot_returns idx) as F.
  destruct (firstEmptySlot idx) as [i| |]; cbn [bind];
    [|discriminate|contradiction].
  destruct (i =? 0); [discriminate|].
  rewrite ReadEntryAtFileOffset_eq.
  destruct (_ <? _); cbn [bind]; [discriminate|].
  destruct (_ && _); cbn [bind]; [|discriminate].
  destruct (_ <? _); [discriminate|].
  destruct (negb _); discriminate.
Qed.

(** The capacity in slots, as [InitializePosition] computes it. *)
Lemma slots_of_bytes (b : Z) :
  in_int64 b ->
  in_int64 (Z.quot b entryWidth)
  /\ (0 < Z.quot b entryWidth -> entryWidth * Z.quot b entryWidth <= b).
Proof.
  change entryWidth with 12. intros Hb. ranges.
  Z.quot_rem_to_equations. lia.
Qed.

(** [InitializePosition] once its search has settled on a slot [i > 0]. *)
Lemma InitializePosition_last (idx : Index) (i : Z) :
  in_int64 (bytes (opts idx)) -> len (mmap idx) <= max_int64 ->
  firstEmptySlot idx = Returned i -> 0 < i ->
  InitializePosition idx
  = (let idx' := set_position idx (i * entryWidth) in
     let last := slot idx (i - 1) in
     if Offset last <? baseOffset (opts idx)
     then Returned (idx', (None, Some ErrIndexCorrupt))
     else if negb (Z.rem (i * entryWidth) entryWidth =? 0)
          then Returned (idx', (None, Some ErrIndexCorrupt))
          else Returned (idx', (Some last, None))).
Proof.
  intros Hb Hm Hs Hi.
  destruct (slots_of_bytes _ Hb) as [Hq Hle].
  pose proof Hs as Hs'. unfold firstEmptySlot in Hs'.
  rewrite (int_id _ Hq) in Hs'.
  apply Search_inv in Hs'; [|ranges; lia].
  destruct Hs' as [[Hn ->]|[Hr Hprobe]]; [lia|].
  specialize (Hprobe Hi).
  specialize (Hle ltac:(lia)). change entryWidth with 12 in *.
  assert (R : in_int64 (i * 12)) by (ranges; lia).
  apply isEmptySlot_inv in Hprobe;
    [|change entryWidth with 12; ranges; lia].
  destruct Hprobe as (H0 & _ & Hl & _). change entryWidth with 12 in *.
  unfold InitializePosition. rewrite Hs. cbn [bind].
  change entryWidth with 12.
  rewrite (int_id _ R), (int64_id _ R).
  replace (i =? 0) with false by (symmetry; apply Z.eqb_neq; lia).
  rewrite (int_id (i - 1)) by (ranges; lia).
  rewrite (int_id ((i - 1) * 12)) by (ranges; lia).
  rewrite (int64_id ((i - 1) * 12)) by (ranges; lia).
  rewrite ReadEntryAtFileOffset_ok; cbn [position mmap set_position];
    change entryWidth with 12; try lia.
  reflexivity.
Qed.

(** C6.  Whenever the search of [InitializePosition] settles on a first
    empty slot [i > 0], the call fails with [ErrIndexCorrupt] if and
    only if the entry decoded at slot [i - 1] has an offset below the
    base offset or the new write position is not a multiple of
    [entryWidth]; on that failure no entry is returned, and otherwise
    the entry of slot [i - 1] is. *)
Theorem InitializePosition_corrupt (idx : Index) (i : Z) :
  wf_Index idx -> firstEmptySlot idx = Returned i -> 0 < i ->
  exists r,
    InitializePosition idx = Returned (set_position idx (i * entryWidth), r)
    /\ (snd r = Some ErrIndexCorrupt
        <-> Offset (slot idx (i - 1)) < baseOffset (opts idx)
            \/ Z.rem (position (set_position idx (i * entryWidth)))
                     entryWidth <> 0)
    /\ (snd r = Some ErrIndexCorrupt -> fst r = None)
    /\ (snd r <> Some ErrIndexCorrupt ->
        r = (Some (slot idx (i - 1)), None)).
Proof.
  intros (Hb & _ & _ & Hm) Hs Hi.
  rewrite (InitializePosition_last idx i Hb Hm Hs Hi).
  cbn [position set_position].
  cbv zeta.
  destruct (Z.ltb_spec (Offset (slot idx (i - 1))) (baseOffset (opts idx)))
    as [L|G].
  - eexists. split; [reflexivity|]. cbn [fst snd].
    split; [tauto|]. split; [reflexivity|]. intros H. now contradiction H.
  - destruct (Z.eqb_spec (Z.rem (i * entryWidth) entryWidth) 0) as [E|N];
      cbn [negb]; eexists; (split; [reflexivity|]); cbn [fst snd].
    + split; [|split; [discriminate | reflexivity]].
      split; [discriminate|]. intros [H|H]; [lia | contradiction].
    + split; [tauto|]. split; [reflexivity|]. intros H. now contradiction H.
Qed.

Lemma InitializePosition_corrupt_witness :
  exists r,
    InitializePosition mismatched
    = Returned (set_position mismatched (1 * entryWidth), r)
    /\ (snd r = Some ErrIndexCorrupt
        <-> Offset (slot mismatched (1 - 1)) < baseOffset (opts mismatched)
            \/ Z.rem (position (set_position mismatched (1 * entryWidth)))
                     entryWidth <> 0)
    /\ (snd r = Some ErrIndexCorrupt -> fst r = None)
    /\ (snd r <> Some ErrIndexCorrupt ->
        r = (Some (slot mismatched (1 - 1)), None)).
Proof.
  apply (InitializePosition_corrupt mismatched 1); evaluate.
Defined.

End Recovery.

Section Reopening.

Import Sample.

Lemma list_eq_dec_nil {A : Type} (l : list A) : {l = []} + {l <> []}.
Proof. destruct l; [now left | right; discriminate]. Qed.

Lemma last_In {A : Type} (l : list A) (d : A) : l <> [] -> In (last l d) l.
Proof.
  intros Hne. destruct (exists_last Hne) as (l' & a & ->).
  rewrite last_last. apply in_or_app. right. now left.
Qed.

Lemma file_Truncate_length (file : list byte) (size : Z) :
  0 <= size -> len (file_Truncate file size) = size.
Proof.
  intros H. unfold file_Truncate, len.
  rewrite length_app, length_firstn, repeat_length. lia.
Qed.

(** A store fresh from [NewIndex]: the write position is the length of
    the mapping, which is the capacity rounded down to whole slots. *)
Lemma NewIndex_opened (o : options) (file : list byte) (idx : Index) :
  in_int64 (bytes o) -> NewIndex o file = (Some idx, None) ->
  position idx = len (mmap idx)
  /\ len (mmap idx) = entryWidth * Z.quot (bytes (opts idx)) entryWidth
  /\ 0 <= Z.quot (bytes (opts idx)) entryWidth
  /\ in_int64 (bytes (opts idx))
  /\ len (mmap idx) <= max_int64
  /\ baseOffset (opts idx) = baseOffset o.
Proof.
  intros Hb. unfold NewIndex.
  set (o' := if bytes o =? 0 then _ else o).
  assert (Hb' : in_int64 (bytes o')).
  { subst o'. destruct (bytes o =? 0); [cbn; ranges; lia | exact Hb]. }
  assert (Hbase : baseOffset o' = baseOffset o).
  { subst o'. now destruct (bytes o =? 0). }
  clearbody o'.
  destruct (String.eqb (path o') ""); [discriminate|].
  unfold roundDown.
  destruct (Z.ltb_spec (entryWidth * Z.quot (bytes o') entryWidth) 0) as [L|G];
    [discriminate|].
  destruct (entryWidth * Z.quot (bytes o') entryWidth =? 0); [discriminate|].
  intros [= <-]. cbn [position mmap opts].
  rewrite file_Truncate_length by assumption.
  change entryWidth with 12 in *.
  assert (Q : 0 <= Z.quot (bytes o') 12
              /\ 12 * Z.quot (bytes o') 12 <= max_int64).
  { ranges. Z.quot_rem_to_equations. lia. }
  split; [reflexivity|]. split; [reflexivity|]. split; [apply Q|].
  split; [exact Hb'|]. split; [apply Q | exact Hbase].
Qed.

(** C1, as the code has it.  For every store reopened at its full
    pre-allocated capacity after [k] entries, each valid for the codec,
    were appended contiguously from slot 0 (every written slot decodes
    with position and size not both zero, every unwritten slot decodes
    to all zeros), [InitializePosition] sets the write position to
    [i * entryWidth], where [i = k] is the smallest slot index whose
    decoded record has position 0 and size 0; it returns no entry when
    [i = 0] and otherwise the entry decoded at slot [i - 1], which is
    the [k]-th appended entry, and no error. *)
Theorem InitializePosition_recovers
    (o : options) (file : list byte) (idx : Index) (es : list Entry) :
  in_int64 (bytes o) -> NewIndex o file = (Some idx, None) ->
  len es <= slots idx ->
  Forall (valid (baseOffset (opts idx))) es ->
  firstn (Z.to_nat (entryWidth * len es)) (mmap idx)
  = encodeEntries es (baseOffset (opts idx)) ->
  (forall i, 0 <= i < len es -> isSentinel (slot idx i) = false) ->
  (forall i, len es <= i < slots idx ->
             relAt idx (i * entryWidth) = mkRelEntry 0 0 0) ->
  InitializePosition idx
  = Returned (set_position idx (len es * entryWidth),
              (match es with [] => None | _ => Some (last es zeroEntry) end,
               None))
  /\ firstEmptySlot idx = Returned (len es)
  /\ (forall i, 0 <= i < slots idx ->
                (isSentinel (slot idx i) = true <-> len es <= i))
  /\ (es <> [] -> slot idx (len es - 1) = last es zeroEntry).
Proof.
  set (base := baseOffset (opts idx)).
  set (N := slots idx). set (k := len es).
  intros Hb Hnew HkN Hv Hbytes Hwritten Hunwritten.
  destruct (NewIndex_opened o file idx Hb Hnew)
    as (Hpos & Hlen & HN & Hb' & Hmax & _).
  fold (slots idx) in Hlen, HN. fold N in Hlen, HN.
  assert (Ek : k = Z.of_nat (length es)) by reflexivity.
  assert (Hk : 0 <= k) by apply Nat2Z.is_nonneg.
  assert (Hempty : forall i, k <= i < N -> isSentinel (slot idx i) = true).
  { intros i Hi. unfold slot, entryAt. now rewrite Hunwritten. }
  assert (Hprobe : forall i, 0 <= i < N ->
                             isEmptySlot idx i = Returned (isSentinel (slot idx i))).
  { intros i Hi. change entryWidth with 12 in *.
    apply isEmptySlot_ok; change entryWidth with 12; try assumption; lia. }
  assert (Hsearch : firstEmptySlot idx = Returned k).
  { unfold firstEmptySlot. fold (slots idx). fold N.
    rewrite (int_id N) by (ranges; change entryWidth with 12 in *; lia).
    apply Search_found.
    - lia.
    - change entryWidth with 12 in *. lia.
    - intros h Hh. rewrite Hprobe by lia. f_equal. apply Hwritten, Hh.
    - intros h Hh. rewrite Hprobe by lia. f_equal. apply Hempty, Hh. }
  assert (Hholds : holds (set_position idx (k * entryWidth)) es).
  { unfold holds. cbn [position mmap opts set_position]. fold k base.
    change entryWidth with 12 in *. repeat split; try lia. exact Hbytes. }
  assert (Hlast : es <> [] -> slot idx (k - 1) = last es zeroEntry).
  { intros Hne.
    assert (1 <= k).
    { rewrite Ek. destruct es; [contradiction | cbn [length]; lia]. }
    pose proof (entryAt_holds (set_position idx (k * entryWidth)) es
                  (length es - 1) Hholds Hv) as E.
    unfold slot.
    replace ((k - 1) * entryWidth)
      with (entryWidth * Z.of_nat (length es - 1))
      by (change entryWidth with 12; lia).
    change (entryAt idx (entryWidth * Z.of_nat (length es - 1)))
      with (entryAt (set_position idx (k * entryWidth))
                    (entryWidth * Z.of_nat (length es - 1))).
    rewrite E by lia.
    destruct es as [|x es' _] using rev_ind; [contradiction|].
    rewrite last_last, length_app, app_nth2 by (cbn; lia).
    cbn [length].
    now replace (length es' + 1 - 1 - length es')%nat with 0%nat by lia. }
  split; [|split; [exact Hsearch | split; [|exact Hlast]]].
  - destruct (list_eq_dec_nil es) as [->|Hne].
    + unfold InitializePosition. rewrite Hsearch. reflexivity.
    + assert (1 <= k).
      { rewrite Ek. destruct es; [contradiction | cbn [length]; lia]. }
      rewrite (InitializePosition_last idx k); try assumption; try lia.
      cbv zeta. rewrite (Hlast Hne).
      pose proof (last_In es zeroEntry Hne) as Hin.
      rewrite Forall_forall in Hv. specialize (Hv _ Hin).
      destruct Hv as (_ & Hge & _). fold base.
      replace (Offset (last es zeroEntry) <? base) with false
        by (symmetry; apply Z.ltb_ge; lia).
      replace (Z.rem (k * entryWidth) entryWidth) with 0
        by (symmetry; apply Z.rem_mul; change entryWidth with 12; lia).
      cbn [Z.eqb negb]. destruct es; [contradiction | reflexivity].
  - intros i Hi. destruct (Z_lt_le_dec i k) as [L|G].
    + rewrite Hwritten by lia. split; [discriminate | lia].
    + rewrite Hempty by lia. split; [lia | reflexivity].
Qed.

Lemma InitializePosition_recovers_witness :
  InitializePosition reopened
  = Returned (set_position reopened (len [e1; e2; e3] * entryWidth),
              (Some (last [e1; e2; e3] zeroEntry), None))
  /\ firstEmptySlot reopened = Returned (len [e1; e2; e3])
  /\ (forall i, 0 <= i < slots reopened ->
                (isSentinel (slot reopened i) = true
                 <-> len [e1; e2; e3] <= i))
  /\ ([e1; e2; e3] <> [] ->
      slot reopened (len [e1; e2; e3] - 1) = last [e1; e2; e3] zeroEntry).
Proof.
  apply (InitializePosition_recovers o (mmap three) reopened [e1; e2; e3]).
  - evaluate.
  - evaluate.
  - evaluate.
  - repeat constructor; evaluate.
  - evaluate.
  - intros i Hi. change (len [e1; e2; e3]) with 3 in Hi.
    assert (C : i = 0 \/ i = 1 \/ i = 2) by lia.
    destruct C as [->|[->| ->]]; evaluate.
  - intros i Hi. change (len [e1; e2; e3]) with 3 in Hi.
    change (slots reopened) with 5 in Hi.
    assert (C : i = 3 \/ i = 4) by lia.
    destruct C as [->| ->]; evaluate.
Defined.

(** C1 as stated fails for entries the codec does not carry, although
    every written slot decodes with position and size not both zero and
    the unwritten slot decodes to zeros.  After an entry with position
    [2^31] the entry returned has position [- 2^31], not the appended
    one; after an entry with an offset below the base offset no entry is
    returned at all, but [ErrIndexCorrupt]. *)
Lemma InitializePosition_returns_decoded_entry :
  (exists idx,
      NewIndex (opts mismatched) wide_file = (Some idx, None)
      /\ firstn 12 (mmap idx) = encodeEntries [wide] 100
      /\ isSentinel (slot idx 0) = false
      /\ relAt idx (1 * entryWidth) = mkRelEntry 0 0 0
      /\ InitializePosition idx
         = Returned (set_position idx (1 * entryWidth),
                     (Some (mkEntry 100 (- 2 ^ 31) 5), None))
      /\ mkEntry 100 (- 2 ^ 31) 5 <> wide)
  /\ NewIndex (opts mismatched) (mmap mismatched) = (Some mismatched, None)
  /\ firstn 12 (mmap mismatched) = encodeEntries [mkEntry 50 0 5] 100
  /\ isSentinel (slot mismatched 0) = false
  /\ relAt mismatched (1 * entryWidth) = mkRelEntry 0 0 0
  /\ InitializePosition mismatched
     = Returned (set_position mismatched (1 * entryWidth),
                 (None, Some ErrIndexCorrupt)).
Proof.
  split; [|evaluate].
  eexists. split; [vm_compute; reflexivity | evaluate].
Qed.

End Reopening.

(** ** The scanner *)

Section Scanning.

Import Sample.

(** [Scan] in terms of the read it starts with. *)
Lemma Scan_eq (idx : Index) (s : IndexScanner) :
  Scan idx s
  = (r <- ReadEntryAtLogOffset idx (entry s) (offset s) ;;
     match r with
     | (_, Some err) => Returned (s, (nilEntry, Some err))
     | (e, None) =>
         if (Offset e =? 0) && negb (offset s =? 0)
         then Returned ({| entry := e; offset := offset s |},
                        (nilEntry, Some io_EOF))
         else Returned ({| entry := e; offset := int64 (offset s + 1) |},
                        (scannerEntry, None))
     end).
Proof. reflexivity. Qed.

(** A slot that can be read is not the last an [int64] can count. *)
Lemma readable_slot_below_max (idx : Index) (e e' : Entry) (i : Z) :
  in_int64 i ->
  ReadEntryAtLogOffset idx e i = Returned (e', None) ->
  i + 1 <= max_int64.
Proof.
  intros Hi Hr. unfold ReadEntryAtLogOffset in Hr.
  apply ReadEntryAtFileOffset_inv in Hr as (H0 & _).
  destruct (Z.eq_dec i max_int64) as [->|Hne]; [|ranges; lia].
  vm_compute in H0. now contradiction H0.
Qed.

(** C8, as the code has it.  A call to [Scan] that returns an entry
    advances the scanner's slot counter by exactly one; a call that
    returns an error returns no entry and leaves the counter where it
    was, and that is what happens when the underlying read fails with
    [io.EOF] and when the zero-offset sentinel ends the sequence. *)
Theorem Scan_counter
    (idx : Index) (s s' : IndexScanner) (p : EntryPtr) (err : option error) :
  in_int64 (offset s) ->
  Scan idx s = Returned (s', (p, err)) ->
  (err = None -> p = scannerEntry /\ offset s' = offset s + 1)
  /\ (err <> None -> p = nilEntry /\ offset s' = offset s)
  /\ (ReadEntryAtLogOffset idx (entry s) (offset s)
      = Returned (entry s, Some io_EOF) ->
      err = Some io_EOF)
  /\ (forall e, ReadEntryAtLogOffset idx (entry s) (offset s)
                = Returned (e, None) ->
                Offset e = 0 -> offset s <> 0 -> err = Some io_EOF).
Proof.
  intros Hi. rewrite Scan_eq.
  destruct (ReadEntryAtLogOffset idx (entry s) (offset s))
    as [[e [rerr|]]| |] eqn:R; cbn [bind]; try discriminate.
  - intros [= <- <- <-].
    split; [discriminate|]. split; [auto|].
    split; [now intros [= _ ->] | discriminate].
  - pose proof (readable_slot_below_max idx (entry s) e (offset s) Hi R) as Hmax.
    destruct ((Offset e =? 0) && negb (offset s =? 0)) eqn:C;
      intros [= <- <- <-]; cbn [offset].
    + split; [discriminate|]. split; [auto|]. split; [discriminate|].
      reflexivity.
    + rewrite int64_id by (ranges; lia).
      split; [auto|]. split; [intros H; now contradiction H|].
      split; [discriminate|].
      intros e0 [= <-] Hz Hnz. rewrite Hz in C.
      apply Z.eqb_neq in Hnz. rewrite Hnz in C. discriminate.
Qed.

Lemma Scan_counter_witness :
  (@None error = None ->
   scannerEntry = scannerEntry
   /\ offset {| entry := e2; offset := 2 |}
      = offset {| entry := e1; offset := 1 |} + 1)
  /\ (@None error <> None ->
      scannerEntry = nilEntry
      /\ offset {| entry := e2; offset := 2 |}
         = offset {| entry := e1; offset := 1 |})
  /\ (ReadEntryAtLogOffset three (entry {| entry := e1; offset := 1 |})
                           (offset {| entry := e1; offset := 1 |})
      = Returned (entry {| entry := e1; offset := 1 |}, Some io_EOF) ->
      @None error = Some io_EOF)
  /\ (forall e, ReadEntryAtLogOffset three (entry {| entry := e1; offset := 1 |})
                                     (offset {| entry := e1; offset := 1 |})
                = Returned (e, None) ->
                Offset e = 0 -> offset {| entry := e1; offset := 1 |} <> 0 ->
                @None error = Some io_EOF).
Proof.
  apply (Scan_counter three {| entry := e1; offset := 1 |}
                      {| entry := e2; offset := 2 |} scannerEntry None);
    evaluate.
Defined.

(** C8 as stated fails on both paths it names: at the end of the index
    the read fails with [io.EOF] and the counter stays at 3; on the
    zero-offset sentinel (slot 1 of a segment with base offset -1) the
    call ends the sequence and the counter stays at 1. *)
Lemma Scan_keeps_counter_on_error :
  Scan three {| entry := e3; offset := 3 |}
  = Returned ({| entry := e3; offset := 3 |}, (nilEntry, Some io_EOF))
  /\ Scan below_zero {| entry := mkEntry (-1) 0 10; offset := 1 |}
     = Returned ({| entry := mkEntry 0 10 10; offset := 1 |},
                 (nilEntry, Some io_EOF)).
Proof. evaluate. Qed.

End Scanning.

Section ScanningAll.

Import Sample.

Variable idx : Index.
Variable es : list Entry.
Hypothesis Hholds : holds idx es.
Hypothesis Hvalid : Forall (valid (baseOffset (opts idx))) es.
Hypothesis Hmax : len (mmap idx) <= max_int64.

(** One call on a slot that holds an entry the sentinel test lets
    through. *)
Lemma Scan_slot (s : IndexScanner) (i : nat) :
  (i < length es)%nat -> offset s = Z.of_nat i ->
  i = 0%nat \/ Offset (nth i es zeroEntry) <> 0 ->
  Scan idx s
  = Returned ({| entry := nth i es zeroEntry; offset := Z.of_nat (S i) |},
              (scannerEntry, None)).
Proof.
  intros Hi Hoff Hnz. destruct Hholds as (Hpos & Hcap & _).
  rewrite Scan_eq, Hoff. unfold ReadEntryAtLogOffset.
  unfold len in *. change entryWidth with 12 in *.
  rewrite (int64_id (Z.of_nat i * 12)) by (ranges; lia).
  rewrite ReadEntryAtFileOffset_ok; change entryWidth with 12;
    try (unfold len; lia).
  replace (Z.of_nat i * 12) with (entryWidth * Z.of_nat i)
    by (change entryWidth with 12; lia).
  rewrite (entryAt_holds idx es i Hholds Hvalid Hi). cbn [bind].
  replace ((Offset (nth i es zeroEntry) =? 0) && negb (Z.of_nat i =? 0))
    with false.
  - rewrite int64_id by (ranges; lia). do 3 f_equal. lia.
  - symmetry. apply andb_false_iff. destruct Hnz as [->|Hnz].
    + now right.
    + left. now apply Z.eqb_neq.
Qed.

(** The calls that walk the tail [rest] of the entries. *)
Lemma scanMany_tail (rest : list Entry) :
  forall (pre : list Entry) (s : IndexScanner),
    es = pre ++ rest -> offset s = len pre ->
    (forall i, (0 < i < length es)%nat -> Offset (nth i es zeroEntry) <> 0) ->
    exists s',
      scanMany idx s (length rest)
      = Returned (s', map (fun e => (Some e, None)) rest)
      /\ offset s' = len es.
Proof.
  induction rest as [|e rest IH]; intros pre s Hes Hoff Hnz.
  - exists s. cbn. split; [reflexivity|].
    now rewrite Hoff, Hes, app_nil_r.
  - cbn [scanMany length map].
    assert (Hi : (length pre < length es)%nat).
    { rewrite Hes, length_app. cbn [length]. lia. }
    assert (Hnth : nth (length pre) es zeroEntry = e).
    { rewrite Hes, app_nth2, Nat.sub_diag by lia. reflexivity. }
    rewrite (Scan_slot s (length pre) Hi Hoff).
    + cbn [bind fst snd deref entry]. rewrite Hnth.
      destruct (IH (pre ++ [e])
                   {| entry := e; offset := Z.of_nat (S (length pre)) |})
        as (s' & Hs' & Ho').
      * now rewrite <- app_assoc.
      * cbn [offset]. unfold len. rewrite length_app. cbn [length].
        f_equal. lia.
      * exact Hnz.
      * exists s'. rewrite Hs'. cbn [bind fst snd]. auto.
    + destruct (length pre) as [|n] eqn:L; [now left|].
      right. apply Hnz. lia.
Qed.

Lemma scanMany_all :
  entryWidth * len es <= max_int64 - entryWidth ->
  (forall i, (0 < i < length es)%nat -> Offset (nth i es zeroEntry) <> 0) ->
  exists s,
    scanMany idx NewIndexScanner (length es)
    = Returned (s, map (fun e => (Some e, None)) es)
    /\ offset s = len es
    /\ Scan idx s = Returned (s, (nilEntry, Some io_EOF)).
Proof.
  intros Hroom Hnz.
  destruct (scanMany_tail es [] NewIndexScanner eq_refl eq_refl Hnz)
    as (s & Hs & Ho).
  exists s. split; [exact Hs | split; [exact Ho|]].
  destruct Hholds as (Hpos & _).
  assert (0 <= len es) by apply Nat2Z.is_nonneg.
  rewrite Scan_eq, Ho. unfold ReadEntryAtLogOffset.
  change entryWidth with 12 in *.
  rewrite (int64_id (len es * 12)) by (ranges; lia).
  rewrite ReadEntryAtFileOffset_EOF; [reflexivity|].
  change entryWidth with 12. rewrite int64_id by (ranges; lia). lia.
Qed.

End ScanningAll.

Section ScannerTermination.

Import Sample.

(** Offsets that increase from an entry that is not negative are
    nonzero in every slot but the first. *)
Lemma increasing_offsets_nonzero (es : list Entry) :
  (forall i j, (i < j < length es)%nat ->
               Offset (nth i es zeroEntry) < Offset (nth j es zeroEntry)) ->
  0 <= Offset (nth 0 es zeroEntry) ->
  forall i, (0 < i < length es)%nat -> Offset (nth i es zeroEntry) <> 0.
Proof.
  intros Hinc H0 i Hi. specialize (Hinc 0%nat i ltac:(lia)). lia.
Qed.

(** C7, as the code has it.  For every store that holds exactly [k]
    valid entries, where no slot other than possibly slot 0 decodes to
    an entry whose offset (base offset plus relative offset) is 0, as is
    the case when the offsets increase from a first offset that is not
    negative: the first [k] calls of [Scan] on a fresh scanner return
    the [k] entries in append order, and the call after them fails with
    [io.EOF].  (The slot after the last is taken to be addressable by an
    [int64].) *)
Theorem scanner_yields_entries (idx : Index) (es : list Entry) :
  holds idx es -> Forall (valid (baseOffset (opts idx))) es ->
  len (mmap idx) <= max_int64 ->
  entryWidth * len es <= max_int64 - entryWidth ->
  (forall i, (0 < i < length es)%nat -> Offset (nth i es zeroEntry) <> 0)
  \/ ((forall i j, (i < j < length es)%nat ->
                   Offset (nth i es zeroEntry) < Offset (nth j es zeroEntry))
      /\ 0 <= Offset (nth 0 es zeroEntry)) ->
  exists s,
    scanMany idx NewIndexScanner (length es)
    = Returned (s, map (fun e => (Some e, None)) es)
    /\ offset s = len es
    /\ Scan idx s = Returned (s, (nilEntry, Some io_EOF)).
Proof.
  intros Hh Hv Hmax Hroom Hnz.
  apply (scanMany_all idx es Hh Hv Hmax Hroom).
  destruct Hnz as [Hnz|[Hinc H0]]; [exact Hnz|].
  now apply increasing_offsets_nonzero.
Qed.

Lemma scanner_yields_entries_witness :
  exists s,
    scanMany three NewIndexScanner (length [e1; e2; e3])
    = Returned (s, map (fun e => (Some e, None)) [e1; e2; e3])
    /\ offset s = len [e1; e2; e3]
    /\ Scan three s = Returned (s, (nilEntry, Some io_EOF)).
Proof.
  apply (scanner_yields_entries three [e1; e2; e3]).
  - evaluate.
  - repeat constructor; evaluate.
  - evaluate.
  - evaluate.
  - left. intros i Hi. cbn [length] in Hi.
    assert (C : i = 1%nat \/ i = 2%nat) by lia.
    destruct C as [->| ->]; evaluate.
Defined.

(** C7 as stated fails when the base offset is negative: the store
    holds two valid entries with increasing offsets -1 and 0, slot 1
    encodes the relative offset 1, and yet the second [Scan] ends the
    sequence with [io.EOF] instead of returning the second entry,
    because the entry decoded there has offset 0. *)
Lemma scanner_stops_at_offset_zero :
  holds below_zero [mkEntry (-1) 0 10; mkEntry 0 10 10]
  /\ Forall (valid (baseOffset (opts below_zero)))
            [mkEntry (-1) 0 10; mkEntry 0 10 10]
  /\ Offset (mkEntry (-1) 0 10) < Offset (mkEntry 0 10 10)
  /\ relOffset (relAt below_zero (1 * entryWidth)) = 1
  /\ scanMany below_zero NewIndexScanner 2
     = Returned ({| entry := mkEntry 0 10 10; offset := 1 |},
                 [(Some (mkEntry (-1) 0 10), None); (None, Some io_EOF)]).
Proof.
  split; [evaluate|]. split; [repeat constructor; evaluate|]. evaluate.
Qed.

End ScannerTermination.


(** * Further properties of the store *)

(** ** Reads and the codec *)

Section ReadsAndCodec.

Import Sample.

(** X1.  [ReadEntryAtFileOffset] returns an error exactly when the
    boundary check [position < offset + entryWidth] fires; the error is
    then [io.EOF] and [*e] is left as it was.  No other error is ever
    returned: the "binary read failed" path is never taken. *)
Theorem read_fails_only_with_EOF (idx : Index) (e : Entry) (f : Z) :
  (position idx < int64 (f + entryWidth) ->
   ReadEntryAtFileOffset idx e f = Returned (e, Some io_EOF))
  /\ (forall e' err,
         ReadEntryAtFileOffset idx e f = Returned (e', Some err) ->
         err = io_EOF /\ e' = e /\ position idx < int64 (f + entryWidth)).
Proof.
  split; [apply ReadEntryAtFileOffset_EOF|].
  intros e' err. rewrite ReadEntryAtFileOffset_eq.
  destruct (Z.ltb_spec (position idx) (int64 (f + entryWidth))) as [L|G].
  - intros [= <- <-]. auto.
  - destruct (_ && _); discriminate.
Qed.

Lemma read_fails_only_with_EOF_witness :
  ReadEntryAtFileOffset three zeroEntry 36 = Returned (zeroEntry, Some io_EOF)
  /\ (io_EOF = io_EOF /\ zeroEntry = zeroEntry
      /\ position three < int64 (36 + entryWidth)).
Proof.
  destruct (read_fails_only_with_EOF three zeroEntry 36) as [H1 H2].
  assert (E : ReadEntryAtFileOffset three zeroEntry 36
              = Returned (zeroEntry, Some io_EOF)) by (apply H1; evaluate).
  split; [exact E | exact (H2 zeroEntry io_EOF E)].
Defined.

(** X2.  For an entry whose relative offset fits the 32-bit field (also
    one below the base offset), encoding and decoding give the entry back
    if and only if its position fits a signed 32-bit field: a position
    from [2^31] on does not survive the index. *)
Theorem codec_round_trip_iff_position_fits (e e' : Entry) (base : Z) :
  wf_Entry e -> in_int32 (Offset e - base) ->
  (fill (newRelEntry e base) e' base = e <-> in_int32 (Position e)).
Proof.
  intros (Ho & Hp & Hs) Hrel. unfold fill, newRelEntry.
  cbn [relOffset relPosition relSize].
  rewrite (int64_id (Offset e - base)) by (ranges; lia).
  rewrite (int32_id (Offset e - base)) by assumption.
  replace (base + (Offset e - base)) with (Offset e) by lia.
  rewrite (int64_id (Offset e)) by assumption.
  split.
  - intros E. apply (f_equal Position) in E. cbn [Position] in E.
    rewrite <- E. apply int32_range.
  - intros Hpos. rewrite int32_id by assumption. now destruct e.
Qed.

Lemma codec_round_trip_iff_position_fits_witness :
  fill (newRelEntry (mkEntry 90 (2 ^ 31) 5) 100) zeroEntry 100
  = mkEntry 90 (2 ^ 31) 5
  <-> in_int32 (Position (mkEntry 90 (2 ^ 31) 5)).
Proof.
  apply (codec_round_trip_iff_position_fits (mkEntry 90 (2 ^ 31) 5) zeroEntry 100);
    ranges; cbn; lia.
Defined.

(** X3.  Lookup by slot: in a store that holds the valid entries [es],
    [ReadEntryAtLogOffset] returns the [i]-th entry for every slot
    [0 <= i < len es], and fails with [io.EOF] for every slot from
    [len es] on (as far as the slot's bytes are addressable by an
    [int64]). *)
Theorem lookup_by_slot (idx : Index) (es : list Entry) (e : Entry) (i : Z) :
  holds idx es -> Forall (valid (baseOffset (opts idx))) es ->
  len (mmap idx) <= max_int64 -> 0 <= i ->
  i * entryWidth <= max_int64 - entryWidth ->
  ReadEntryAtLogOffset idx e i
  = if i <? len es
    then Returned (nth (Z.to_nat i) es zeroEntry, None)
    else Returned (e, Some io_EOF).
Proof.
  intros Hh Hv Hmax Hi Hroom. pose proof Hh as (Hpos & Hcap & _).
  unfold ReadEntryAtLogOffset. change entryWidth with 12 in *.
  rewrite (int64_id (i * 12)) by (ranges; lia).
  destruct (Z.ltb_spec i (len es)) as [L|G].
  - rewrite ReadEntryAtFileOffset_ok; change entryWidth with 12; try lia.
    replace (i * 12) with (entryWidth * Z.of_nat (Z.to_nat i))
      by (change entryWidth with 12; lia).
    rewrite (entryAt_holds idx es (Z.to_nat i) Hh Hv);
      [reflexivity | unfold len in L; lia].
  - apply ReadEntryAtFileOffset_EOF. change entryWidth with 12.
    rewrite int64_id by (ranges; lia). lia.
Qed.

Lemma lookup_by_slot_witness :
  ReadEntryAtLogOffset three zeroEntry 1
  = if 1 <? len [e1; e2; e3]
    then Returned (nth (Z.to_nat 1) [e1; e2; e3] zeroEntry, None)
    else Returned (zeroEntry, Some io_EOF).
Proof.
  apply (lookup_by_slot three [e1; e2; e3] zeroEntry 1);
    try (repeat constructor); evaluate.
Defined.

End ReadsAndCodec.

(** ** Truncating and appending *)

Section TruncateAndAppend.

Import Sample.

Lemma encodeEntries_firstn (base : Z) (es : list Entry) (n : nat) :
  firstn (12 * n) (encodeEntries es base) = encodeEntries (firstn n es) base.
Proof.
  destruct (Nat.le_gt_cases (length es) n) as [L|G].
  - rewrite (firstn_all2 es) by assumption.
    apply firstn_all2.
    pose proof (encodeEntries_length base es) as E.
    unfold len in E. change entryWidth with 12 in E. lia.
  - rewrite <- (firstn_skipn n es) at 1.
    rewrite encodeEntries_app, firstn_app.
    pose proof (encodeEntries_length base (firstn n es)) as E.
    unfold len in E. rewrite length_firstn in E.
    change entryWidth with 12 in E.
    replace (12 * n - length (encodeEntries (firstn n es) base))%nat
      with 0%nat by lia.
    rewrite firstn_O, app_nil_r. apply firstn_all2. lia.
Qed.

(** X4.  Truncating a store that holds [es] to [m] entries, [0 <= m <=
    len es], succeeds, leaves the mapping untouched and leaves a store
    that holds exactly the first [m] entries: they stay readable, the
    rest is cut off. *)
Theorem TruncateEntries_keeps_prefix (idx : Index) (es : list Entry) (m : Z) :
  holds idx es -> len (mmap idx) <= max_int64 -> 0 <= m <= len es ->
  exists idx',
    TruncateEntries idx m = Returned (idx', None)
    /\ holds idx' (firstn (Z.to_nat m) es)
    /\ mmap idx' = mmap idx /\ opts idx' = opts idx.
Proof.
  intros (Hpos & Hcap & Hbytes) Hmax Hm. change entryWidth with 12 in *.
  exists (set_position idx (m * 12)). split.
  { rewrite TruncateEntries_nowrap
      by (ranges; change entryWidth with 12 in *; lia).
    change entryWidth with 12.
    destruct (Z.gtb_spec (m * 12) (position idx)); [lia|reflexivity]. }
  split; [|split; reflexivity].
  assert (Lm : len (firstn (Z.to_nat m) es) = m).
  { unfold len in *. rewrite length_firstn. lia. }
  unfold holds. cbn [position mmap opts set_position]. rewrite Lm.
  change entryWidth with 12.
  split; [lia | split; [lia|]].
  rewrite <- encodeEntries_firstn, <- Hbytes, firstn_firstn.
  f_equal. unfold len in *. lia.
Qed.

Lemma TruncateEntries_keeps_prefix_witness :
  exists idx',
    TruncateEntries three 1 = Returned (idx', None)
    /\ holds idx' (firstn (Z.to_nat 1) [e1; e2; e3])
    /\ mmap idx' = mmap three /\ opts idx' = opts three.
Proof.
  apply (TruncateEntries_keeps_prefix three [e1; e2; e3] 1); evaluate.
Defined.

(** X5.  Appending no entries is accepted and changes nothing, as long as
    the write position lies inside the mapping; outside it even the empty
    append panics. *)
Theorem WriteEntries_nothing (idx : Index) :
  in_int64 (position idx) ->
  WriteEntries idx []
  = if (0 <=? position idx) && (position idx <=? len (mmap idx))
    then Returned (idx, None) else Panicked.
Proof.
  intros Hp. rewrite WriteEntries_eq.
  destruct ((0 <=? position idx) && (position idx <=? len (mmap idx))) eqn:E;
    [|reflexivity].
  apply andb_prop in E as [E1 E2]. apply Z.leb_le in E1, E2.
  unfold copy. cbn [encodeEntries fold_left length fst len Z.of_nat].
  rewrite Nat.min_0_r. cbn [firstn skipn app].
  rewrite firstn_skipn.
  change (entryWidth * int64 0) with 0. change (int64 0) with 0.
  rewrite Z.add_0_r, int64_id by assumption.
  now destruct idx.
Qed.

Lemma WriteEntries_nothing_witness :
  WriteEntries three []
  = if (0 <=? position three) && (position three <=? len (mmap three))
    then Returned (three, None) else Panicked.
Proof. apply (WriteEntries_nothing three); evaluate. Defined.

(** The mapping after two appends in a row, the first of which ends
    inside the mapping. *)
Lemma written_twice {A : Type} (m a b : list A) (p : nat) :
  (p + length a <= length m)%nat ->
  let m1 := firstn p m ++ firstn (length m - p) a ++ skipn (p + length a) m in
  firstn (p + length a) m1
  ++ firstn (length m1 - (p + length a)) b
  ++ skipn (p + length a + length b) m1
  = firstn p m ++ firstn (length m - p) (a ++ b)
    ++ skipn (p + length (a ++ b)) m.
Proof.
  intros Hfit m1.
  assert (E1 : m1 = (firstn p m ++ a) ++ skipn (p + length a) m).
  { subst m1. rewrite (firstn_all2 a) by lia. now rewrite app_assoc. }
  assert (Lpre : length (firstn p m ++ a) = (p + length a)%nat).
  { rewrite length_app, length_firstn. lia. }
  assert (L1 : length m1 = length m).
  { rewrite E1, length_app, Lpre, length_skipn. lia. }
  rewrite L1, E1.
  rewrite <- Lpre at 1. rewrite firstn_app, firstn_all, Nat.sub_diag,
    firstn_O, app_nil_r.
  replace (p + length a + length b)%nat
    with (length b + length (firstn p m ++ a))%nat by lia.
  rewrite <- skipn_skipn, skipn_app, skipn_all, Nat.sub_diag.
  cbn [app skipn]. rewrite skipn_skipn.
  rewrite firstn_app, (firstn_all2 a) by lia.
  rewrite length_app, <- !app_assoc.
  do 3 f_equal; f_equal; lia.
Qed.

(** X6.  Appends compose: when the first batch ends inside the mapping,
    appending [a] and then [b] leaves the same store as appending
    [a ++ b] in one call, whether or not [b] runs past the capacity.
    (The final position is taken to fit an [int64].) *)
Theorem WriteEntries_app (idx : Index) (a b : list Entry) :
  0 <= position idx ->
  position idx + entryWidth * len a <= len (mmap idx) ->
  position idx + entryWidth * len (a ++ b) <= max_int64 ->
  exists idx1,
    WriteEntries idx a = Returned (idx1, None)
    /\ WriteEntries idx1 b = WriteEntries idx (a ++ b).
Proof.
  intros Hp Hfit Hmax.
  assert (Ha : 0 <= len a) by apply Nat2Z.is_nonneg.
  assert (Hb : 0 <= len b) by apply Nat2Z.is_nonneg.
  assert (Lab : len (a ++ b) = len a + len b).
  { unfold len. rewrite length_app. lia. }
  rewrite Lab in Hmax. change entryWidth with 12 in *.
  eexists. split.
  { apply WriteEntries_ok; change entryWidth with 12; lia. }
  pose proof (encodeEntries_length (baseOffset (opts idx)) a) as LA.
  pose proof (encodeEntries_length (baseOffset (opts idx)) b) as LB.
  change entryWidth with 12 in LA, LB. unfold len in LA, LB.
  assert (Lm1 : length (firstn (Z.to_nat (position idx)) (mmap idx)
                        ++ firstn (length (mmap idx) - Z.to_nat (position idx))
                                  (encodeEntries a (baseOffset (opts idx)))
                        ++ skipn (Z.to_nat (position idx)
                                  + length (encodeEntries a (baseOffset (opts idx))))
                                 (mmap idx))
                = length (mmap idx)).
  { rewrite !length_app, !length_firstn, length_skipn. unfold len in *. lia. }
  rewrite !WriteEntries_ok; cbn [position mmap opts];
    change entryWidth with 12; unfold len at 1; rewrite ?Lm1;
    try (unfold len in *; lia).
  rewrite Lab. do 2 f_equal. f_equal; [|lia].
  rewrite encodeEntries_app.
  pose proof (written_twice (mmap idx)
                (encodeEntries a (baseOffset (opts idx)))
                (encodeEntries b (baseOffset (opts idx)))
                (Z.to_nat (position idx))) as W.
  cbv zeta in W. rewrite Lm1 in W.
  rewrite <- W by (unfold len in *; lia).
  f_equal; [f_equal; unfold len in *; lia|].
  f_equal; f_equal; unfold len in *; lia.
Qed.

Lemma WriteEntries_app_witness :
  exists idx1,
    WriteEntries empty [e1] = Returned (idx1, None)
    /\ WriteEntries idx1 [e2; e3] = WriteEntries empty ([e1] ++ [e2; e3]).
Proof.
  apply (WriteEntries_app empty [e1] [e2; e3]); evaluate.
Defined.

End TruncateAndAppend.

(** ** Opening, closing and recovery *)

Section OpenCloseRecover.

Import Sample.

Lemma decodeRel_zeros :
  decodeRel Encoding (repeat Byte.x00 12) = mkRelEntry 0 0 0.
Proof. reflexivity. Qed.

(** Twelve bytes taken from a run of zeros that follows [pre]. *)
Lemma window_of_zeros (pre : list byte) (z a : nat) :
  (a + 12 <= z)%nat ->
  firstn 12 (skipn (length pre + a) (pre ++ repeat Byte.x00 z))
  = repeat Byte.x00 12.
Proof.
  intros H. rewrite Nat.add_comm, <- skipn_skipn.
  rewrite skipn_app, skipn_all, Nat.sub_diag. cbn [app skipn].
  replace z with (a + (12 + (z - a - 12)))%nat by lia.
  rewrite repeat_app, skipn_app, repeat_length, Nat.sub_diag.
  rewrite skipn_all2 by (rewrite repeat_length; lia).
  cbn [app skipn]. rewrite repeat_app, firstn_app, repeat_length, Nat.sub_diag.
  rewrite firstn_O, app_nil_r. apply firstn_all2. rewrite repeat_length. lia.
Qed.

(** Recovery on a store laid out as [NewIndex] leaves it: the write
    position at the end of a mapping of [slots idx] whole slots, the
    first [len es] of them written, the rest decoding to zeros. *)
Lemma InitializePosition_layout (idx : Index) (es : list Entry) :
  in_int64 (bytes (opts idx)) ->
  position idx = len (mmap idx) ->
  len (mmap idx) = entryWidth * slots idx ->
  Forall (valid (baseOffset (opts idx))) es ->
  firstn (Z.to_nat (entryWidth * len es)) (mmap idx)
  = encodeEntries es (baseOffset (opts idx)) ->
  len es <= slots idx ->
  (forall i, 0 <= i < len es -> isSentinel (slot idx i) = false) ->
  (forall i, len es <= i < slots idx -> isSentinel (slot idx i) = true) ->
  InitializePosition idx
  = Returned (set_position idx (len es * entryWidth),
              (match es with [] => None | _ => Some (last es zeroEntry) end,
               None)).
Proof.
  set (base := baseOffset (opts idx)).
  set (N := slots idx). set (k := len es).
  intros Hb' Hpos Hlen Hv Hbytes HkN Hwritten Hempty.
  assert (Ek : k = Z.of_nat (length es)) by reflexivity.
  assert (Hk : 0 <= k) by apply Nat2Z.is_nonneg.
  assert (HN : 0 <= N) by lia.
  assert (Hmax : len (mmap idx) <= max_int64).
  { destruct (slots_of_bytes _ Hb') as [_ Hle]. fold (slots idx) in Hle.
    fold N in Hle. destruct (Z.eq_dec N 0) as [E0|Hne].
    - rewrite Hlen, E0. ranges. change entryWidth with 12. lia.
    - specialize (Hle ltac:(lia)). ranges. lia. }
  assert (Hprobe : forall i, 0 <= i < N ->
                             isEmptySlot idx i = Returned (isSentinel (slot idx i))).
  { intros i Hi. change entryWidth with 12 in *.
    apply isEmptySlot_ok; change entryWidth with 12; try assumption; lia. }
  assert (Hsearch : firstEmptySlot idx = Returned k).
  { unfold firstEmptySlot. fold (slots idx). fold N.
    rewrite (int_id N) by (ranges; change entryWidth with 12 in *; lia).
    apply Search_found.
    - lia.
    - change entryWidth with 12 in *. lia.
    - intros h Hh. rewrite Hprobe by lia. f_equal. apply Hwritten, Hh.
    - intros h Hh. rewrite Hprobe by lia. f_equal. apply Hempty, Hh. }
  destruct (list_eq_dec_nil es) as [->|Hne].
  - unfold InitializePosition. rewrite Hsearch. reflexivity.
  - assert (1 <= k).
    { rewrite Ek. destruct es; [contradiction | cbn [length]; lia]. }
    assert (Hholds : holds (set_position idx (k * entryWidth)) es).
    { unfold holds. cbn [position mmap opts set_position]. fold k base.
      change entryWidth with 12 in *. repeat split; try lia. exact Hbytes. }
    assert (Hlast : slot idx (k - 1) = last es zeroEntry).
    { pose proof (entryAt_holds (set_position idx (k * entryWidth)) es
                    (length es - 1) Hholds Hv) as E.
      unfold slot.
      replace ((k - 1) * entryWidth)
        with (entryWidth * Z.of_nat (length es - 1))
        by (change entryWidth with 12; lia).
      change (entryAt idx (entryWidth * Z.of_nat (length es - 1)))
        with (entryAt (set_position idx (k * entryWidth))
                      (entryWidth * Z.of_nat (length es - 1))).
      rewrite E by lia.
      destruct es as [|x es' _] using rev_ind; [contradiction|].
      rewrite last_last, length_app, app_nth2 by (cbn; lia).
      cbn [length].
      now replace (length es' + 1 - 1 - length es')%nat with 0%nat by lia. }
    rewrite (InitializePosition_last idx k); try assumption; try lia.
    cbv zeta. rewrite Hlast.
    pose proof (last_In es zeroEntry Hne) as Hin.
    rewrite Forall_forall in Hv. specialize (Hv _ Hin).
    destruct Hv as (_ & Hge & _). fold base.
    replace (Offset (last es zeroEntry) <? base) with false
      by (symmetry; apply Z.ltb_ge; lia).
    replace (Z.rem (k * entryWidth) entryWidth) with 0
      by (symmetry; apply Z.rem_mul; change entryWidth with 12; lia).
    cbn [Z.eqb negb]. destruct es; [contradiction | reflexivity].
Qed.

(** X7.  With a path and a capacity of at least one entry (or 0, which
    stands for 10 MiB) [NewIndex] succeeds: the mapping has the capacity
    rounded down to whole entries, the write position is put at its end
    (not at the end of the data), the bytes the file had are kept up to
    that length and every byte beyond them is zero. *)
Theorem NewIndex_layout (o : options) (file : list byte) :
  path o <> EmptyString -> bytes o = 0 \/ entryWidth <= bytes o ->
  exists idx,
    NewIndex o file = (Some idx, None)
    /\ bytes (opts idx) = (if bytes o =? 0 then 10485760 else bytes o)
    /\ baseOffset (opts idx) = baseOffset o
    /\ len (mmap idx) = entryWidth * (bytes (opts idx) / entryWidth)
    /\ position idx = len (mmap idx)
    /\ firstn (length file) (mmap idx)
       = firstn (Z.to_nat (len (mmap idx))) file
    /\ skipn (length file) (mmap idx)
       = repeat Byte.x00 (Z.to_nat (len (mmap idx)) - length file).
Proof.
  unfold NewIndex. intros Hp Hcap.
  assert (Hb : 0 <= bytes o) by (change entryWidth with 12 in Hcap; lia).
  set (o' := if bytes o =? 0 then _ else o).
  assert (Hpath : path o' = path o) by (subst o'; now destruct (bytes o =? 0)).
  assert (Hbase : baseOffset o' = baseOffset o)
    by (subst o'; now destruct (bytes o =? 0)).
  assert (Hbytes : bytes o' = if bytes o =? 0 then 10485760 else bytes o)
    by (subst o'; now destruct (bytes o =? 0)).
  assert (Hpos : 0 <= bytes o').
  { rewrite Hbytes. destruct (bytes o =? 0); lia. }
  clearbody o'. rewrite Hpath.
  replace (String.eqb (path o) "") with false
    by (symmetry; now apply String.eqb_neq).
  unfold roundDown. rewrite Z.quot_div_nonneg by (change entryWidth with 12; lia).
  assert (Hone : entryWidth <= bytes o').
  { rewrite Hbytes. change entryWidth with 12 in *.
    destruct (Z.eqb_spec (bytes o) 0); lia. }
  assert (Hsize0 : 0 < entryWidth * (bytes o' / entryWidth)).
  { change entryWidth with 12 in *.
    pose proof (Z.div_le_lower_bound (bytes o') 12 1 ltac:(lia) ltac:(lia)).
    lia. }
  assert (Hsize : 0 <= entryWidth * (bytes o' / entryWidth)) by lia.
  replace (entryWidth * (bytes o' / entryWidth) <? 0) with false
    by (symmetry; apply Z.ltb_ge; exact Hsize).
  replace (entryWidth * (bytes o' / entryWidth) =? 0) with false
    by (symmetry; apply Z.eqb_neq; lia).
  eexists. split; [reflexivity|]. cbn [opts mmap position].
  rewrite file_Truncate_length by exact Hsize.
  split; [exact Hbytes|]. split; [exact Hbase|].
  split; [reflexivity|]. split; [reflexivity|].
  unfold file_Truncate.
  set (n := Z.to_nat (entryWidth * (bytes o' / entryWidth))).
  split.
  - rewrite firstn_app, length_firstn, firstn_firstn.
    destruct (Nat.le_gt_cases n (length file)) as [L|G].
    + replace (n - length file)%nat with 0%nat by lia.
      rewrite Nat.min_r, Nat.min_l by lia.
      cbn [repeat]. now rewrite firstn_nil, app_nil_r.
    + rewrite Nat.min_l, Nat.min_r by lia.
      rewrite (firstn_all2 file) by lia.
      rewrite Nat.sub_diag, firstn_O, app_nil_r.
      symmetry. apply firstn_all2. lia.
  - rewrite skipn_app, length_firstn.
    destruct (Nat.le_gt_cases n (length file)) as [L|G].
    + replace (n - length file)%nat with 0%nat by lia.
      cbn [repeat]. rewrite skipn_nil, app_nil_r.
      apply skipn_all2. rewrite length_firstn. lia.
    + rewrite Nat.min_r by lia. rewrite Nat.sub_diag. cbn [skipn].
      rewrite skipn_all2 by (rewrite length_firstn; lia). reflexivity.
Qed.

Lemma NewIndex_layout_witness :
  exists idx,
    NewIndex o (encodeEntries [e1] 100) = (Some idx, None)
    /\ bytes (opts idx) = (if bytes o =? 0 then 10485760 else bytes o)
    /\ baseOffset (opts idx) = baseOffset o
    /\ len (mmap idx) = entryWidth * (bytes (opts idx) / entryWidth)
    /\ position idx = len (mmap idx)
    /\ firstn (length (encodeEntries [e1] 100)) (mmap idx)
       = firstn (Z.to_nat (len (mmap idx))) (encodeEntries [e1] 100)
    /\ skipn (length (encodeEntries [e1] 100)) (mmap idx)
       = repeat Byte.x00 (Z.to_nat (len (mmap idx))
                          - length (encodeEntries [e1] 100)).
Proof.
  apply (NewIndex_layout o (encodeEntries [e1] 100)); [evaluate|].
  right. evaluate.
Defined.

(** The mapping of a file that did not exist is all zeros. *)
Lemma relAt_zero_region (idx : Index) (pre : list byte) (z : nat) (i : Z) :
  mmap idx = pre ++ repeat Byte.x00 z ->
  len pre <= i * entryWidth -> i * entryWidth + entryWidth <= len pre + Z.of_nat z ->
  relAt idx (i * entryWidth) = mkRelEntry 0 0 0.
Proof.
  intros Hm Hlo Hhi. unfold relAt, bytesAt. rewrite Hm.
  change entryWidth with 12 in *. unfold len in *.
  replace (Z.to_nat (i * 12))
    with (length pre + (Z.to_nat (i * 12) - length pre))%nat by lia.
  change (Z.to_nat 12) with 12%nat.
  rewrite window_of_zeros by lia. apply decodeRel_zeros.
Qed.

Lemma isSentinel_zero_region (idx : Index) (pre : list byte) (z : nat) (i : Z) :
  mmap idx = pre ++ repeat Byte.x00 z ->
  len pre <= i * entryWidth -> i * entryWidth + entryWidth <= len pre + Z.of_nat z ->
  isSentinel (slot idx i) = true.
Proof.
  intros Hm Hlo Hhi. unfold slot, entryAt.
  now rewrite (relAt_zero_region idx pre z i Hm Hlo Hhi).
Qed.

(** X8.  An index opened on a file that did not exist recovers as empty:
    [InitializePosition] puts the write position at 0 and returns neither
    an entry nor an error. *)
Theorem InitializePosition_new_file (o : options) (idx : Index) :
  in_int64 (bytes o) -> NewIndex o [] = (Some idx, None) ->
  InitializePosition idx = Returned (set_position idx 0, (None, None)).
Proof.
  intros Hb Hnew.
  destruct (NewIndex_opened o [] idx Hb Hnew)
    as (Hpos & Hlen & HN & Hb' & Hmax & _).
  assert (Hm : mmap idx = [] ++ repeat Byte.x00 (Z.to_nat (len (mmap idx)))).
  { unfold NewIndex in Hnew.
    destruct (String.eqb _ _); [discriminate|].
    destruct (_ <? 0) eqn:E; [discriminate|]. apply Z.ltb_ge in E.
    destruct (roundDown _ _ =? 0); [discriminate|].
    injection Hnew as <-. cbn [mmap].
    rewrite file_Truncate_length by exact E.
    unfold file_Truncate. rewrite firstn_nil. cbn [app length].
    now rewrite Nat.sub_0_r. }
  apply (InitializePosition_layout idx [] Hb' Hpos Hlen (Forall_nil _)
           eq_refl HN).
  - intros i Hi. cbn in Hi. lia.
  - intros i Hi. fold (slots idx) in Hlen. cbn [len length Z.of_nat] in Hi.
    apply (isSentinel_zero_region idx [] (Z.to_nat (len (mmap idx))) i Hm);
      cbn [len length Z.of_nat]; change entryWidth with 12 in *;
      unfold len in *; lia.
Qed.

Lemma InitializePosition_new_file_witness :
  InitializePosition {| opts := o; mmap := repeat Byte.x00 60; position := 60 |}
  = Returned (set_position
                {| opts := o; mmap := repeat Byte.x00 60; position := 60 |} 0,
              (None, None)).
Proof.
  apply (InitializePosition_new_file o); evaluate.
Defined.

Lemma slot_of_held (idx : Index) (es : list Entry) (i : Z) :
  holds idx es -> Forall (valid (baseOffset (opts idx))) es ->
  0 <= i < len es -> slot idx i = nth (Z.to_nat i) es zeroEntry.
Proof.
  intros Hh Hv Hi. unfold slot.
  replace (i * entryWidth) with (entryWidth * Z.of_nat (Z.to_nat i))
    by (change entryWidth with 12; lia).
  apply entryAt_holds; try assumption. unfold len in Hi. lia.
Qed.

(** X9.  Shutdown and restart.  [Close] on a store that holds [es] cuts
    the file down to exactly the bytes of the entries; [NewIndex] with
    the same options maps it again at full length, zero-filled behind
    the entries; and [InitializePosition] then restores the write
    position the store had when it was closed and returns its last entry
    (none for an empty store).  The entries are valid, none is the
    sentinel, the capacity is at least one entry, and the mapping had
    the length [NewIndex] gives it. *)
Theorem Close_reopen_recovers (idx : Index) (es : list Entry) :
  holds idx es -> Forall (valid (baseOffset (opts idx))) es ->
  Forall (fun e => isSentinel e = false) es ->
  path (opts idx) <> EmptyString -> entryWidth <= bytes (opts idx) ->
  in_int64 (bytes (opts idx)) ->
  len (mmap idx) = roundDown (bytes (opts idx)) entryWidth ->
  exists idx',
    Close idx = (encodeEntries es (baseOffset (opts idx)), None)
    /\ NewIndex (opts idx) (encodeEntries es (baseOffset (opts idx)))
       = (Some idx', None)
    /\ opts idx' = opts idx /\ len (mmap idx') = len (mmap idx)
    /\ InitializePosition idx'
       = Returned (set_position idx' (position idx),
                   (match es with [] => None | _ => Some (last es zeroEntry) end,
                    None))
    /\ holds (set_position idx' (position idx)) es.
Proof.
  intros Hh Hv Hns Hpath Hone Hb Hlen.
  assert (Hb0 : bytes (opts idx) <> 0) by (change entryWidth with 12 in Hone; lia).
  assert (Hsize : 0 < len (mmap idx)).
  { rewrite Hlen. unfold roundDown. change entryWidth with 12 in *.
    Z.quot_rem_to_equations. lia. }
  pose proof Hh as (Hpos & Hcap & Hbytes).
  set (base := baseOffset (opts idx)) in *.
  set (enc := encodeEntries es base) in *.
  assert (Hk : 0 <= len es) by apply Nat2Z.is_nonneg.
  assert (Lenc : len enc = entryWidth * len es)
    by apply encodeEntries_length.
  change entryWidth with 12 in Hpos, Hcap, Hbytes, Lenc.
  assert (Hclose : Close idx = (enc, None)).
  { unfold Close. replace (position idx <? 0) with false
      by (symmetry; apply Z.ltb_ge; lia).
    unfold file_Truncate. rewrite Hpos, Hbytes.
    replace (Z.to_nat (12 * len es) - length (mmap idx))%nat with 0%nat
      by (unfold len in *; lia).
    cbn [repeat]. now rewrite app_nil_r. }
  set (z := (length (mmap idx) - length enc)%nat).
  assert (Hfile : file_Truncate enc (len (mmap idx)) = enc ++ repeat Byte.x00 z).
  { unfold file_Truncate. rewrite firstn_all2 by (unfold len in *; lia).
    f_equal. f_equal. unfold len, z. lia. }
  exists {| opts := opts idx; mmap := enc ++ repeat Byte.x00 z;
            position := len (enc ++ repeat Byte.x00 z) |}.
  assert (Lm : len (enc ++ repeat Byte.x00 z) = len (mmap idx)).
  { unfold len, z in *. rewrite length_app, repeat_length. lia. }
  split; [exact Hclose|]. split.
  { unfold NewIndex. replace (bytes (opts idx) =? 0) with false
      by (symmetry; now apply Z.eqb_neq).
    replace (String.eqb (path (opts idx)) "") with false
      by (symmetry; now apply String.eqb_neq).
    rewrite <- Hlen.
    replace (len (mmap idx) <? 0) with false
      by (symmetry; apply Z.ltb_ge; unfold len; lia).
    replace (len (mmap idx) =? 0) with false
      by (symmetry; apply Z.eqb_neq; lia).
    now rewrite Hfile. }
  split; [reflexivity|]. split; [exact Lm|].
  assert (Hh' : holds (set_position
                         {| opts := opts idx; mmap := enc ++ repeat Byte.x00 z;
                            position := len (enc ++ repeat Byte.x00 z) |}
                         (position idx)) es).
  { unfold holds. cbn [position mmap opts set_position]. rewrite Lm.
    change entryWidth with 12. split; [exact Hpos | split; [exact Hcap|]].
    fold base. fold enc.
    replace (Z.to_nat (12 * len es)) with (length enc) by (unfold len in *; lia).
    now rewrite firstn_app, firstn_all, Nat.sub_diag, firstn_O, app_nil_r. }
  split; [|exact Hh'].
  replace (position idx) with (len es * entryWidth)
    by (change entryWidth with 12; lia).
  assert (Hslots : len (mmap idx) = entryWidth * slots idx).
  { rewrite Hlen. reflexivity. }
  apply InitializePosition_layout; cbn [opts mmap position]; try assumption.
  - reflexivity.
  - rewrite Lm. exact Hslots.
  - destruct Hh' as (_ & _ & E). exact E.
  - change (slots _) with (slots idx). change entryWidth with 12 in Hslots. lia.
  - intros i Hi.
    change (slot _ i)
      with (slot (set_position
                    {| opts := opts idx; mmap := enc ++ repeat Byte.x00 z;
                       position := len (enc ++ repeat Byte.x00 z) |}
                    (position idx)) i).
    rewrite (slot_of_held _ es i Hh' Hv Hi).
    rewrite Forall_forall in Hns. apply Hns, nth_In. unfold len in Hi. lia.
  - intros i Hi. change (slots _) with (slots idx) in Hi.
    apply (isSentinel_zero_region _ enc z i); [reflexivity| |];
      change entryWidth with 12 in *; unfold len, z in *; lia.
Qed.

Lemma Close_reopen_recovers_witness :
  exists idx',
    Close three = (encodeEntries [e1; e2; e3] (baseOffset (opts three)), None)
    /\ NewIndex (opts three) (encodeEntries [e1; e2; e3] (baseOffset (opts three)))
       = (Some idx', None)
    /\ opts idx' = opts three /\ len (mmap idx') = len (mmap three)
    /\ InitializePosition idx'
       = Returned (set_position idx' (position three),
                   (Some (last [e1; e2; e3] zeroEntry), None))
    /\ holds (set_position idx' (position three)) [e1; e2; e3].
Proof.
  apply (Close_reopen_recovers three [e1; e2; e3]);
    try (repeat constructor); evaluate.
Defined.

End OpenCloseRecover.

(** ** What recovery needs and what it leaves *)

Section RecoveryContract.

Import Sample.

(** X10.  [InitializePosition] must find the write position at the end
    of the mapping: when the store has at least one slot and the write
    position does not cover the slot in the middle, the first probe of
    the search fails with [io.EOF] and the call panics.  So a second
    [InitializePosition], after a first one that found the index less
    than half full, panics. *)
Theorem InitializePosition_needs_position_at_end (idx : Index) :
  in_int64 (bytes (opts idx)) -> 1 <= slots idx ->
  position idx < (slots idx / 2) * entryWidth + entryWidth ->
  InitializePosition idx = Panicked.
Proof.
  intros Hb HN Hp.
  destruct (slots_of_bytes _ Hb) as [Hq Hle]. fold (slots idx) in Hq, Hle.
  specialize (Hle ltac:(lia)). change entryWidth with 12 in *.
  assert (Hh : 0 <= slots idx / 2 /\ 2 * (slots idx / 2) <= slots idx).
  { split; [apply Z.div_pos; lia | apply Z.mul_div_le; lia]. }
  unfold InitializePosition, firstEmptySlot. fold (slots idx).
  rewrite (int_id _ Hq), Search_unfold.
  rewrite Search_loop_step by (ranges; lia).
  replace (0 + slots idx) with (slots idx) by lia.
  unfold isEmptySlot at 1. change entryWidth with 12.
  rewrite (int_id (slots idx / 2 * 12)) by (ranges; lia).
  rewrite (int64_id (slots idx / 2 * 12)) by (ranges; lia).
  rewrite ReadEntryAtFileOffset_EOF; [reflexivity|].
  change entryWidth with 12.
  rewrite (int64_id (slots idx / 2 * 12 + 12)) by (ranges; lia). lia.
Qed.

Lemma InitializePosition_needs_position_at_end_witness :
  InitializePosition (set_position reopened 12) = Panicked.
Proof.
  apply (InitializePosition_needs_position_at_end (set_position reopened 12));
    evaluate.
Defined.

(** The index a search returns is the bound, or a slot where the
    predicate answered true. *)
Lemma Search_loop_upper (f : Z -> outcome bool) (fuel : nat) :
  forall i j r,
    0 <= i <= j -> j <= max_int64 ->
    Search_loop fuel f i j = Returned r ->
    r = j \/ f r = Returned true.
Proof.
  induction fuel as [|fuel IH]; intros i j r Hi Hj Hr.
  - destruct (Z_lt_le_dec i j) as [L|G].
    + cbn [Search_loop] in Hr.
      replace (i <? j) with true in Hr by (symmetry; apply Z.ltb_lt; lia).
      discriminate.
    + rewrite Search_loop_done in Hr by assumption.
      injection Hr as <-. left. lia.
  - destruct (Z_lt_le_dec i j) as [L|G].
    + rewrite Search_loop_step in Hr by (assumption || lia).
      pose proof (midpoint_bounds i j L) as Hm.
      destruct (f ((i + j) / 2)) as [[|]| |] eqn:E; cbn [bind negb] in Hr;
        try discriminate.
      * apply IH in Hr; [|lia|lia]. destruct Hr as [->|R]; [|now right].
        now right.
      * apply IH in Hr; [|lia|lia]. exact Hr.
    + rewrite Search_loop_done in Hr by assumption.
      injection Hr as <-. left. lia.
Qed.

(** X11.  What [InitializePosition] leaves when it returns.  The mapping
    and the options are untouched; the write position is [i *
    entryWidth] for a slot index [i] between 0 and the capacity, inside
    the mapping; slot [i - 1] is not the sentinel and slot [i], if there
    is one, is; the call never fails with [io.EOF]: its only error is
    [ErrIndexCorrupt], returned without an entry exactly when [i > 0] and
    slot [i - 1] decodes to an offset below the base offset; otherwise
    it returns the entry of slot [i - 1], or none when [i = 0]. *)
Theorem InitializePosition_result
    (idx idx' : Index) (r : option Entry) (err : option error) :
  in_int64 (bytes (opts idx)) -> len (mmap idx) <= max_int64 ->
  InitializePosition idx = Returned (idx', (r, err)) ->
  mmap idx' = mmap idx /\ opts idx' = opts idx
  /\ exists i,
       position idx' = i * entryWidth
       /\ 0 <= i /\ (i = 0 \/ i <= slots idx)
       /\ (0 < i -> i * entryWidth <= len (mmap idx)
                    /\ isSentinel (slot idx (i - 1)) = false)
       /\ (i < slots idx -> isSentinel (slot idx i) = true)
       /\ (err = Some ErrIndexCorrupt
           <-> 0 < i /\ Offset (slot idx (i - 1)) < baseOffset (opts idx))
       /\ (err <> Some ErrIndexCorrupt ->
           err = None
           /\ r = if i =? 0 then None else Some (slot idx (i - 1)))
       /\ (err = Some ErrIndexCorrupt -> r = None).
Proof.
  intros Hb Hmax Hres.
  destruct (slots_of_bytes _ Hb) as [Hq Hle]. fold (slots idx) in Hq, Hle.
  destruct (firstEmptySlot idx) as [i| |] eqn:Hs;
    [| unfold InitializePosition in Hres; rewrite Hs in Hres; discriminate
     | unfold InitializePosition in Hres; rewrite Hs in Hres; discriminate ].
  pose proof Hs as Hs1. unfold firstEmptySlot in Hs1. fold (slots idx) in Hs1.
  rewrite (int_id _ Hq) in Hs1.
  assert (Hup : 0 <= slots idx -> i = slots idx
                                  \/ isEmptySlot idx i = Returned true).
  { intros HN. rewrite Search_unfold in Hs1.
    apply Search_loop_upper in Hs1; [exact Hs1 | lia | ranges; lia]. }
  apply Search_inv in Hs1; [|ranges; lia].
  assert (Hi : 0 <= i /\ (i = 0 \/ i <= slots idx)
               /\ (0 < i -> 0 < slots idx
                            /\ isEmptySlot idx (i - 1) = Returned false)).
  { destruct Hs1 as [[Hn ->]|[Hr Hprobe]].
    - split; [lia | split; [now left | lia]].
    - split; [lia | split; [now right | ]]. intros H. split; [lia | auto]. }
  destruct Hi as (Hi0 & Hi1 & Hi2).
  assert (Hsent : i < slots idx -> isSentinel (slot idx i) = true).
  { intros H. destruct Hup as [->|P]; [lia | lia |].
    specialize (Hle ltac:(lia)). change entryWidth with 12 in *.
    apply isEmptySlot_inv in P; [|change entryWidth with 12; ranges; lia].
    now destruct P as (_ & _ & _ & <-). }
  destruct (Z.eq_dec i 0) as [->|Hne].
  - unfold InitializePosition in Hres. rewrite Hs in Hres.
    cbn [bind] in Hres. change (0 =? 0) with true in Hres.
    change (int64 (int (0 * entryWidth))) with 0 in Hres.
    cbv iota in Hres. injection Hres as <- <- <-.
    split; [reflexivity|]. split; [reflexivity|].
    exists 0. cbn [position set_position].
    split; [reflexivity|]. split; [lia|]. split; [now left|].
    split; [lia|]. split; [exact Hsent|].
    split; [split; [discriminate | lia]|].
    split; [auto | discriminate].
  - destruct (Hi2 ltac:(lia)) as [HN HP].
    specialize (Hle HN). change entryWidth with 12 in *.
    apply isEmptySlot_inv in HP; [|change entryWidth with 12; ranges; lia].
    destruct HP as (_ & _ & Hin & Hns). change entryWidth with 12 in Hin.
    rewrite (InitializePosition_last idx i Hb Hmax Hs ltac:(lia)) in Hres.
    cbv zeta in Hres.
    replace (Z.rem (i * entryWidth) entryWidth) with 0 in Hres
      by (symmetry; apply Z.rem_mul; change entryWidth with 12; lia).
    cbn [Z.eqb negb] in Hres.
    assert (Hif : (i =? 0) = false) by now apply Z.eqb_neq.
    destruct (Z.ltb_spec (Offset (slot idx (i - 1))) (baseOffset (opts idx)))
      as [L|G]; injection Hres as <- <- <-;
      (split; [reflexivity|]); (split; [reflexivity|]);
      exists i; cbn [position set_position]; change entryWidth with 12;
      (split; [reflexivity|]); (split; [lia|]); (split; [exact Hi1|]);
      (split; [intros _; split; [lia | now symmetry]|]);
      (split; [exact Hsent|]).
    + split; [split; [intros _; split; [lia | exact L] | reflexivity]|].
      split; [intros H; now contradiction H | reflexivity].
    + rewrite Hif.
      split; [split; [discriminate | intros [_ H]; lia]|].
      split; [auto | discriminate].
Qed.

Lemma InitializePosition_result_witness :
  mmap (set_position reopened 36) = mmap reopened
  /\ opts (set_position reopened 36) = opts reopened
  /\ exists i,
       position (set_position reopened 36) = i * entryWidth
       /\ 0 <= i /\ (i = 0 \/ i <= slots reopened)
       /\ (0 < i -> i * entryWidth <= len (mmap reopened)
                    /\ isSentinel (slot reopened (i - 1)) = false)
       /\ (i < slots reopened -> isSentinel (slot reopened i) = true)
       /\ (@None error = Some ErrIndexCorrupt
           <-> 0 < i /\ Offset (slot reopened (i - 1)) < baseOffset (opts reopened))
       /\ (@None error <> Some ErrIndexCorrupt ->
           @None error = None
           /\ Some e3 = if i =? 0 then None else Some (slot reopened (i - 1)))
       /\ (@None error = Some ErrIndexCorrupt -> Some e3 = None).
Proof.
  apply (InitializePosition_result reopened (set_position reopened 36)
           (Some e3) None); evaluate.
Defined.

(** Whatever [InitializePosition] returns, it has put the write position
    at the slot its search settled on. *)
Lemma InitializePosition_position
    (idx idx' : Index) (r : option Entry * option error) :
  in_int64 (bytes (opts idx)) ->
  InitializePosition idx = Returned (idx', r) ->
  exists i, 0 <= i /\ in_int64 (i * entryWidth)
            /\ idx' = set_position idx (i * entryWidth).
Proof.
  intros Hb Hr.
  destruct (slots_of_bytes _ Hb) as [Hq Hle]. fold (slots idx) in Hq, Hle.
  unfold InitializePosition in Hr.
  destruct (firstEmptySlot idx) as [i| |] eqn:Hs; try discriminate.
  unfold firstEmptySlot in Hs. fold (slots idx) in Hs.
  rewrite (int_id _ Hq) in Hs.
  apply Search_inv in Hs; [|ranges; lia].
  assert (Hi : 0 <= i /\ in_int64 (i * entryWidth)).
  { change entryWidth with 12 in *.
    destruct Hs as [[_ ->]|[Hi _]]; [ranges; lia|].
    destruct (Z.eq_dec i 0) as [->|Hne]; [ranges; lia|].
    specialize (Hle ltac:(lia)). ranges; lia. }
  destruct Hi as [Hi0 Hi].
  exists i. split; [exact Hi0 | split; [exact Hi|]].
  cbn [bind] in Hr. rewrite (int_id _ Hi), (int64_id _ Hi) in Hr.
  destruct (i =? 0); [now injection Hr as <- _|].
  destruct (ReadEntryAtFileOffset _ _ _) as [[e [err|]]| |];
    cbn [bind] in Hr; try discriminate; [now injection Hr as <- _|].
  destruct (_ <? _); [now injection Hr as <- _|].
  destruct (negb _); now injection Hr as <- _.
Qed.

(** X15.  The write position stays a whole number of entries: from an
    aligned store, every [WriteEntries], [TruncateEntries] and
    [InitializePosition] that returns leaves an aligned store, as long as
    the byte positions involved fit the machine integers. *)
Theorem position_stays_aligned (idx : Index) :
  aligned idx ->
  (forall es idx' err,
      WriteEntries idx es = Returned (idx', err) ->
      position idx + entryWidth * len es <= max_int64 -> aligned idx')
  /\ (forall n idx' err,
         TruncateEntries idx n = Returned (idx', err) ->
         in_int64 (n * entryWidth) -> aligned idx')
  /\ (forall idx' r,
         InitializePosition idx = Returned (idx', r) ->
         in_int64 (bytes (opts idx)) -> aligned idx').
Proof.
  unfold aligned. intros Ha. split; [|split].
  - intros es idx' err Hw Hmax. rewrite WriteEntries_eq in Hw.
    destruct ((0 <=? position idx) && (position idx <=? len (mmap idx))) eqn:E;
      [|discriminate].
    apply andb_prop in E as [E1 E2]. apply Z.leb_le in E1, E2.
    rewrite advance_nowrap in Hw by (try assumption; apply Nat2Z.is_nonneg).
    assert (P : position idx' = position idx + entryWidth * len es)
      by (injection Hw as <- _; reflexivity).
    rewrite P. change entryWidth with 12 in *.
    revert Ha. Z.quot_rem_to_equations. lia.
  - intros n idx' err Ht Hn. rewrite TruncateEntries_nowrap in Ht by assumption.
    destruct (_ >? _); injection Ht as <- <-; [exact Ha|].
    cbn [position set_position]. apply Z.rem_mul. change entryWidth with 12. lia.
  - intros idx' r Hr Hb.
    destruct (InitializePosition_position idx idx' r Hb Hr) as (i & _ & _ & ->).
    cbn [position set_position]. apply Z.rem_mul. change entryWidth with 12. lia.
Qed.

Lemma position_stays_aligned_witness :
  (forall es idx' err,
      WriteEntries reopened es = Returned (idx', err) ->
      position reopened + entryWidth * len es <= max_int64 -> aligned idx')
  /\ (forall n idx' err,
         TruncateEntries reopened n = Returned (idx', err) ->
         in_int64 (n * entryWidth) -> aligned idx')
  /\ (forall idx' r,
         InitializePosition reopened = Returned (idx', r) ->
         in_int64 (bytes (opts reopened)) -> aligned idx').
Proof. apply (position_stays_aligned reopened). evaluate. Defined.

End RecoveryContract.

(** ** More on the scanner *)

Section ScannerUse.

Import Sample.

(** X12.  A scanner that has reached the end stays usable: at the end
    of a store that holds [es] its [Scan] fails with [io.EOF] and leaves
    the scanner as it is, and once a further valid entry [e] has been
    appended (inside the mapping) the same scanner's next [Scan] returns
    [e].  The appended entry passes the sentinel test: its offset is not
    0, or it is the first entry of the index. *)
Theorem Scan_resumes_after_append
    (idx : Index) (es : list Entry) (e : Entry) (s : IndexScanner) :
  holds idx es -> Forall (valid (baseOffset (opts idx))) es ->
  valid (baseOffset (opts idx)) e ->
  len (mmap idx) <= max_int64 - entryWidth ->
  entryWidth * (len es + 1) <= len (mmap idx) ->
  offset s = len es -> Offset e <> 0 \/ es = [] ->
  Scan idx s = Returned (s, (nilEntry, Some io_EOF))
  /\ exists idx',
       WriteEntries idx [e] = Returned (idx', None)
       /\ Scan idx' s
          = Returned ({| entry := e; offset := len es + 1 |},
                      (scannerEntry, None)).
Proof.
  intros Hh Hv He Hmax Hfit Hoff Hnz.
  pose proof Hh as (Hpos & _).
  assert (Hk : 0 <= len es) by apply Nat2Z.is_nonneg.
  change entryWidth with 12 in *. split.
  - rewrite Scan_eq, Hoff. unfold ReadEntryAtLogOffset.
    change entryWidth with 12.
    rewrite (int64_id (len es * 12)) by (ranges; lia).
    rewrite ReadEntryAtFileOffset_EOF; [reflexivity|].
    change entryWidth with 12. rewrite int64_id by (ranges; lia). lia.
  - destruct (WriteEntries_holds idx es [e] Hh) as (idx' & W & Hh' & Ho & Hl).
    + ranges; lia.
    + exact Hfit.
    + exists idx'. split; [exact W|].
      assert (Hv' : Forall (valid (baseOffset (opts idx'))) (es ++ [e])).
      { rewrite Ho. apply Forall_app. split; [exact Hv | now constructor]. }
      assert (Hn : nth (length es) (es ++ [e]) zeroEntry = e).
      { rewrite app_nth2, Nat.sub_diag by lia. reflexivity. }
      rewrite (Scan_slot idx' (es ++ [e]) Hh' Hv' ltac:(rewrite Hl; ranges; lia)
                         s (length es)).
      * rewrite Hn. do 3 f_equal. unfold len. lia.
      * rewrite length_app. cbn [length]. lia.
      * exact Hoff.
      * rewrite Hn. destruct Hnz as [H| ->]; [now right | now left].
Qed.

Lemma Scan_resumes_after_append_witness :
  Scan (set_position three 24) {| entry := e2; offset := 2 |}
  = Returned ({| entry := e2; offset := 2 |}, (nilEntry, Some io_EOF))
  /\ exists idx',
       WriteEntries (set_position three 24) [e3] = Returned (idx', None)
       /\ Scan idx' {| entry := e2; offset := 2 |}
          = Returned ({| entry := e3; offset := len [e1; e2] + 1 |},
                      (scannerEntry, None)).
Proof.
  apply (Scan_resumes_after_append (set_position three 24) [e1; e2] e3
           {| entry := e2; offset := 2 |});
    try (repeat constructor); evaluate.
Defined.

(** X14.  The zero-offset test of [Scan] looks at the decoded offset,
    which includes the base offset.  On a slot below the write position
    whose bytes are all zero (never written), [Scan] ends the sequence
    with [io.EOF] only when the base offset is 0 and the slot is not slot
    0; with any other base offset it returns the entry [(baseOffset, 0,
    0)] and moves on to the next slot. *)
Theorem Scan_on_unwritten_slot (idx : Index) (s : IndexScanner) :
  in_int64 (baseOffset (opts idx)) -> len (mmap idx) <= max_int64 ->
  0 <= offset s ->
  offset s * entryWidth + entryWidth <= position idx ->
  position idx <= len (mmap idx) ->
  relAt idx (offset s * entryWidth) = mkRelEntry 0 0 0 ->
  Scan idx s
  = if (baseOffset (opts idx) =? 0) && negb (offset s =? 0)
    then Returned ({| entry := mkEntry (baseOffset (opts idx)) 0 0;
                      offset := offset s |},
                   (nilEntry, Some io_EOF))
    else Returned ({| entry := mkEntry (baseOffset (opts idx)) 0 0;
                      offset := offset s + 1 |},
                   (scannerEntry, None)).
Proof.
  intros Hb Hmax H0 Hp Hl Hz. change entryWidth with 12 in *.
  rewrite Scan_eq. unfold ReadEntryAtLogOffset. change entryWidth with 12.
  rewrite (int64_id (offset s * 12)) by (ranges; lia).
  rewrite ReadEntryAtFileOffset_ok; change entryWidth with 12; try lia.
  unfold entryAt. change entryWidth with 12 in Hz. rewrite Hz.
  unfold fill. cbn [relOffset relPosition relSize bind Offset].
  rewrite Z.add_0_r, (int64_id _ Hb).
  rewrite (int64_id (offset s + 1)) by (ranges; lia).
  reflexivity.
Qed.

Lemma Scan_on_unwritten_slot_witness :
  Scan reopened {| entry := e3; offset := 3 |}
  = if (baseOffset (opts reopened) =? 0)
       && negb (offset {| entry := e3; offset := 3 |} =? 0)
    then Returned ({| entry := mkEntry (baseOffset (opts reopened)) 0 0;
                      offset := offset {| entry := e3; offset := 3 |} |},
                   (nilEntry, Some io_EOF))
    else Returned ({| entry := mkEntry (baseOffset (opts reopened)) 0 0;
                      offset := offset {| entry := e3; offset := 3 |} + 1 |},
                   (scannerEntry, None)).
Proof.
  apply (Scan_on_unwritten_slot reopened {| entry := e3; offset := 3 |});
    evaluate.
Defined.

End ScannerUse.

(** ** Appends read back, and the entry recovery cannot see *)

Section ReadBack.

Import Sample.

(** X16.  Append and lookup: appending a batch of valid entries inside
    the capacity to a store that holds [es] leaves a store that holds
    [es ++ new]; every slot, old and new, then reads back its entry, and
    the slot after the last fails with [io.EOF]. *)
Theorem WriteEntries_then_lookup
    (idx : Index) (es new : list Entry) (e : Entry) (i : Z) :
  holds idx es -> Forall (valid (baseOffset (opts idx))) es ->
  Forall (valid (baseOffset (opts idx))) new ->
  len (mmap idx) <= max_int64 - entryWidth ->
  entryWidth * (len es + len new) <= len (mmap idx) ->
  0 <= i <= len es + len new ->
  exists idx',
    WriteEntries idx new = Returned (idx', None)
    /\ holds idx' (es ++ new)
    /\ ReadEntryAtLogOffset idx' e i
       = if i <? len es + len new
         then Returned (nth (Z.to_nat i) (es ++ new) zeroEntry, None)
         else Returned (e, Some io_EOF).
Proof.
  intros Hh Hv Hvn Hmax Hfit Hi.
  destruct (WriteEntries_holds idx es new Hh) as (idx' & W & Hh' & Ho & Hl);
    [change entryWidth with 12 in *; ranges; lia | exact Hfit |].
  exists idx'. split; [exact W | split; [exact Hh'|]].
  assert (Hv' : Forall (valid (baseOffset (opts idx'))) (es ++ new)).
  { rewrite Ho. apply Forall_app. now split. }
  assert (Lapp : len (es ++ new) = len es + len new).
  { unfold len. rewrite length_app. lia. }
  pose proof Hh' as (Hpos & Hcap & _). rewrite Lapp in Hpos, Hcap.
  unfold ReadEntryAtLogOffset. change entryWidth with 12 in *.
  rewrite (int64_id (i * 12)) by (ranges; lia).
  destruct (Z.ltb_spec i (len es + len new)) as [L|G].
  - rewrite ReadEntryAtFileOffset_ok; change entryWidth with 12; try lia.
    replace (i * 12) with (entryWidth * Z.of_nat (Z.to_nat i))
      by (change entryWidth with 12; lia).
    rewrite (entryAt_holds idx' (es ++ new) (Z.to_nat i) Hh' Hv');
      [reflexivity | unfold len in *; rewrite length_app; lia].
  - apply ReadEntryAtFileOffset_EOF. change entryWidth with 12.
    rewrite int64_id by (ranges; lia). lia.
Qed.

Lemma WriteEntries_then_lookup_witness :
  exists idx',
    WriteEntries (set_position three 12) [e2; e3] = Returned (idx', None)
    /\ holds idx' ([e1] ++ [e2; e3])
    /\ ReadEntryAtLogOffset idx' zeroEntry 2
       = if 2 <? len [e1] + len [e2; e3]
         then Returned (nth (Z.to_nat 2) ([e1] ++ [e2; e3]) zeroEntry, None)
         else Returned (zeroEntry, Some io_EOF).
Proof.
  apply (WriteEntries_then_lookup (set_position three 12) [e1] [e2; e3]
           zeroEntry 2);
    try (repeat constructor); evaluate.
Defined.



End ReadBack.
